(** * Mailbox synchronisation and folder cleanup of the e-mail agent backend

    A shallow embedding of [src/services/gmailService.js]
    ([fetchGmailEmails], [deleteGmailEmails]), of the message schema of
    [src/models/Email.js] and of the [/cleanup] route, followed by the
    properties of the specification that were checked against them.

    Layout: the model first (one module per part of the program), then the
    theorems. *)

From Stdlib Require Import ZArith Lia.
From stdpp Require Import base option list strings gmap fin_maps.

Open Scope string_scope.
Open Scope list_scope.
Open Scope nat_scope.

(* ===================================================================== *)
(** * Part I. The model                                                   *)
(* ===================================================================== *)

(** ** JavaScript built-ins used by the service *)
Module JS.

(** [Array.prototype.slice(start)] with its single argument: a negative
    [start] counts from the end and is clamped at the first element, a
    non-negative one is clamped at the length; the elements from that
    position to the end are returned.  [-0] is [0], so [slice(-0)] is the
    whole array. *)
Definition slice {A : Type} (start : Z) (l : list A) : list A :=
  let len := Z.of_nat (length l) in
  let k := if (start <? 0)%Z then Z.max (len + start) 0 else Z.min start len in
  drop (Z.to_nat k) l.

(** [a || b] on strings that may be [undefined]: the empty string and
    [undefined] are both falsy. *)
Definition or_else (a : option string) (b : string) : string :=
  match a with
  | Some s => if decide (s = EmptyString) then b else s
  | None => b
  end.

(** [a || b] when both sides may be [undefined]. *)
Definition or_opt (a b : option string) : option string :=
  match a with
  | Some s => if decide (s = EmptyString) then b else Some s
  | None => b
  end.

End JS.

(** ** The fetch pipeline: which search results are fetched *)
Module Limit.

(** [const emailsToFetch = results.slice(-limit)] (gmailService.js:279). *)
Definition emailsToFetch (limit : Z) (results : list nat) : list nat :=
  JS.slice (- limit) results.

(** The specification's words: the [n] most recent matches of a search result
    that is ascending by arrival, that is its last [n] elements. *)
Definition mostRecent (n : nat) (results : list nat) : list nat :=
  reverse (take n (reverse results)).

(** The [n] oldest matches. *)
Definition oldest (n : nat) (results : list nat) : list nat := take n results.

End Limit.

(** ** The message collection ([src/models/Email.js]) *)
Module Store.

(** [status]: the schema's enum. *)
Inductive Status := pending | processing | replied | failed | ignored.

(** A document of the [Email] collection, with the fields the fetch pipeline
    sets.  [userId] stands for the owner's ObjectId; [messageId] and
    [inReplyTo] are absent ([None]) when the parsed message has no such
    header. *)
Record Email := {
  userId : nat;
  from : string;
  to : string;
  subject : string;
  body : string;
  messageId : option string;
  inReplyTo : option string;
  status : Status;
  receivedAt : Z;
}.

#[export] Instance Status_eq_dec : EqDecision Status.
Proof. solve_decision. Defined.

#[export] Instance Email_eq_dec : EqDecision Email.
Proof. solve_decision. Defined.

(** What [simpleParser] hands to its callback: every field may be missing. *)
Record Parsed := {
  p_from : option string;      (* parsed.from?.text *)
  p_to : option string;        (* parsed.to?.text *)
  p_subject : option string;
  p_text : option string;
  p_html : option string;
  p_messageId : option string;
  p_inReplyTo : option string;
  p_date : option Z;
}.

(** [new Email({...})] of gmailService.js:307-317; [now] is [new Date()]. *)
Definition newEmail (owner : nat) (parsed : Parsed) (now : Z) : Email :=
  {| userId := owner;
     from := JS.or_else (p_from parsed) EmptyString;
     to := JS.or_else (p_to parsed) EmptyString;
     subject := JS.or_else (p_subject parsed) "(No Subject)";
     body := JS.or_else (JS.or_opt (p_text parsed) (p_html parsed)) EmptyString;
     messageId := p_messageId parsed;
     inReplyTo := p_inReplyTo parsed;
     status := pending;
     receivedAt := default now (p_date parsed) |}.

(** The query filter [{ userId, messageId }] of [Email.findOne]; with an
    [undefined] identifier it selects the owner's documents that have none. *)
Definition matches (owner : nat) (mid : option string) (e : Email) : bool :=
  bool_decide (userId e = owner) && bool_decide (messageId e = mid).

(** [Email.findOne({ userId, messageId })]: the first matching document. *)
Definition findOne (store : list Email) (owner : nat) (mid : option string)
  : option Email :=
  List.find (matches owner mid) store.

(** The schema's [required: true] on [from], [to], [subject] and [body]: a
    required string must not be empty. *)
Definition validates (e : Email) : bool :=
  negb (bool_decide (from e = EmptyString))
  && negb (bool_decide (to e = EmptyString))
  && negb (bool_decide (subject e = EmptyString))
  && negb (bool_decide (body e = EmptyString)).

(** [messageId: { unique: true, sparse: true }]: the index is on [messageId]
    alone, over all owners, and leaves out documents without the field. *)
Definition violatesUniqueIndex (store : list Email) (e : Email) : bool :=
  match messageId e with
  | None => false
  | Some m => existsb (fun r => bool_decide (messageId r = Some m)) store
  end.

(** [newEmail.save()]: the collection with the document appended, or [None]
    when validation or the unique index rejects it (the call throws). *)
Definition save (store : list Email) (e : Email) : option (list Email) :=
  if validates e && negb (violatesUniqueIndex store e)
  then Some (store ++ [e]) else None.

(** Number of documents of an owner that carry a given identifier. *)
Definition countPair (store : list Email) (owner : nat) (m : string) : nat :=
  length (filter (fun e => userId e = owner ∧ messageId e = Some m) store).

(** The specification's invariant: an (owner, identifier) pair occurs at most
    once. *)
Definition pairUnique (store : list Email) : Prop :=
  ∀ owner m, countPair store owner m ≤ 1.

(** What the unique index keeps: an identifier occurs at most once in the
    whole collection. *)
Definition identifierUnique (store : list Email) : Prop :=
  ∀ m, length (filter (fun e => messageId e = Some m) store) ≤ 1.

End Store.

(** ** Categories, mailboxes and folder resolution ([deleteGmailEmails]) *)
Module Gmail.

(** An entry of [categoryMap] as the code reads it: [categoryConfig.folders],
    [.label] and [.searchFrom], each [undefined] ([None]) when the object has
    no such property; a [null] label is [None] as well (both are falsy). *)
Record CategoryConfig := {
  folders : option (list string);
  label : option string;
  searchFrom : option string;
}.

(** The own properties of the object literal [categoryMap]
    (gmailService.js:440-470). *)
Definition categoryTable : gmap string CategoryConfig :=
  list_to_map [
    ("promotional", {| folders := Some ["[Gmail]/Promotions"; "Promotions"];
                       label := Some "Promotions"; searchFrom := None |});
    ("social", {| folders := Some ["[Gmail]/Social"; "Social"];
                  label := Some "Social"; searchFrom := None |});
    ("updates", {| folders := Some ["[Gmail]/Updates"; "Updates"];
                   label := Some "Updates"; searchFrom := None |});
    ("purchases", {| folders := Some ["[Gmail]/Purchases"; "Purchases"];
                     label := Some "Purchases"; searchFrom := None |});
    ("spam", {| folders := Some ["[Gmail]/Spam"; "Spam"; "Junk"];
                label := None; searchFrom := None |});
    ("trash", {| folders := Some ["[Gmail]/Trash"; "Trash"; "[Gmail]/Bin"];
                 label := None; searchFrom := None |});
    ("noreply", {| folders := Some ["INBOX"];
                   label := None; searchFrom := Some "noreply" |})
  ].

(** [categoryMap] is a plain object, so [categoryMap[category]] also finds
    what the object inherits from [Object.prototype]: these property names
    yield a function (or, for [__proto__], the prototype object), which is
    truthy and has no [folders], [label] or [searchFrom]. *)
Definition objectPrototypeKeys : list string :=
  [ "constructor"; "hasOwnProperty"; "isPrototypeOf"; "propertyIsEnumerable";
    "toLocaleString"; "toString"; "valueOf"; "__proto__";
    "__defineGetter__"; "__defineSetter__"; "__lookupGetter__";
    "__lookupSetter__" ].

Definition inheritedMember : CategoryConfig :=
  {| folders := None; label := None; searchFrom := None |}.

(** [categoryMap[category]]: an own entry, an inherited member, or
    [undefined]. *)
Definition categoryMap (category : string) : option CategoryConfig :=
  match categoryTable !! category with
  | Some cfg => Some cfg
  | None =>
      if bool_decide (category ∈ objectPrototypeKeys)
      then Some inheritedMember else None
  end.

(** A mailbox as [imap.getBoxes] reports it: its [children] are [null] or a
    map from child name to mailbox. *)
#[warnings="-register-all"]
Inductive Box := MkBox (children : option (gmap string Box)).

Definition children (b : Box) : option (gmap string Box) :=
  match b with MkBox c => c end.

(** [name.startsWith(prefix)] together with what is left after the prefix;
    for such a name [name.replace(prefix, '')] removes that leading
    occurrence. *)
Fixpoint stripPrefix (prefix name : string) : option string :=
  match prefix, name with
  | EmptyString, _ => Some name
  | String a p, String b n =>
      if bool_decide (a = b) then stripPrefix p n else None
  | String _ _, EmptyString => None
  end.

(** [mailboxExists] (gmailService.js:551-559): a top-level mailbox, or a
    child of the top-level ["[Gmail]"] mailbox. *)
Definition mailboxExists (boxes : gmap string Box) (name : string) : bool :=
  if bool_decide (is_Some (boxes !! name)) then true
  else match stripPrefix "[Gmail]/" name with
       | Some childName =>
           match boxes !! "[Gmail]" with
           | Some gmail =>
               match children gmail with
               | Some kids => bool_decide (is_Some (kids !! childName))
               | None => false
               end
           | None => false
           end
       | None => false
       end.

(** An element of [foldersToProcess]. *)
Record FolderRef := {
  folder : string;
  useLabel : bool;
  labelName : option string;
  fromFilter : option string;       (* the element's [searchFrom] *)
}.

(** A string or [null]/[undefined] used as a condition. *)
Definition truthy (o : option string) : bool :=
  match o with
  | Some s => negb (bool_decide (s = EmptyString))
  | None => false
  end.

(** The loop [for (const possibleFolder of folders) if (mailboxExists(..))
    { push; break; }]: the first candidate that exists. *)
Definition firstExisting (boxes : gmap string Box) (candidates : list string)
  : option string :=
  List.find (mailboxExists boxes) candidates.

(** The outcome of building [foldersToProcess]: iterating
    [categoryConfig.folders] when it is [undefined] throws a [TypeError]. *)
Inductive Resolution := Folders (fs : list FolderRef) | TypeError.

Definition probe (boxes : gmap string Box) (cfg : CategoryConfig)
    (mk : string → FolderRef) (before : list FolderRef) : Resolution :=
  match folders cfg with
  | None => TypeError
  | Some candidates =>
      match firstExisting boxes candidates with
      | Some name => Folders (before ++ [mk name])
      | None => Folders before
      end
  end.

(** [foldersToProcess] (gmailService.js:548-607). *)
Definition foldersToProcess (boxes : gmap string Box) (cfg : CategoryConfig)
  : Resolution :=
  if truthy (label cfg) then
    probe boxes cfg
      (fun name => {| folder := name; useLabel := false;
                      labelName := None; fromFilter := None |})
      [ {| folder := "INBOX"; useLabel := true;
           labelName := label cfg; fromFilter := None |} ]
  else if truthy (searchFrom cfg) then
    probe boxes cfg
      (fun name => {| folder := name; useLabel := false;
                      labelName := None; fromFilter := searchFrom cfg |})
      []
  else
    probe boxes cfg
      (fun name => {| folder := name; useLabel := false;
                      labelName := None; fromFilter := None |})
      [].

(** IMAP search criteria, as far as the service builds them. *)
Inductive Criteria :=
| ALL
| X_GM_LABELS (labelName : string)
| FROM (sender : string)
| Given (criteria : list string).     (* the caller's [searchCriteria] *)

(** The criteria of one folder (gmailService.js:651-659). *)
Definition searchCriteriaFor (f : FolderRef) : Criteria :=
  if useLabel f && truthy (labelName f)
  then X_GM_LABELS (default EmptyString (labelName f))
  else if truthy (fromFilter f) then FROM (default EmptyString (fromFilter f))
  else ALL.

End Gmail.

(** ** The IMAP session of an operation: promise, timers, listeners *)
Module Session.
Import Store Gmail.

(** The errors an operation can be rejected with. *)
Inductive Error :=
| ImapError (code : string)   (* an error of the IMAP client; [code] is [err.code] *)
| OperationTimeout            (* 'IMAP operation timeout after ... seconds' *)
| ConnectionTimeout           (* 'Connection timeout - Gmail server not responding' *)
| ConnectionReset             (* the fetch handler's text for ECONNRESET *)
| ServerNotFound              (* ... for ENOTFOUND *)
| ConnectionTimedOut.         (* ... for ETIMEDOUT *)

Definition isTimeout (e : Error) : bool :=
  match e with OperationTimeout | ConnectionTimeout => true | _ => false end.

(** A [setTimeout] handle: never set, pending, cancelled by [clearTimeout],
    or run. *)
Inductive Timer := Unset | Armed | Cleared | Fired.

Definition clearTimeout (t : Timer) : Timer :=
  match t with Armed => Cleared | _ => t end.

Definition isArmed (t : Timer) : bool :=
  match t with Armed => true | _ => false end.

(** What the promise is resolved with.  The arrays and the object are passed
    by reference: the caller sees [emails] and [deletedCounts] as they are,
    later changes included. *)
Inductive Value := EmptyArray | EmailsArray | DeletedCountsObject.

Inductive Promise := Pending | Resolved (v : Value) | Rejected (e : Error).

(** The synchronous effects of the callbacks. *)
Inductive Action :=
| ClearConnectionTimeout
| ClearOperationTimeout
| ImapEnd                                        (* imap.end() *)
| Reject (e : Error)
| ResolveEmpty                                   (* resolve([]) *)
| SetDeletedCount (category : string) (n : nat)  (* deletedCounts[category] = n *)
| IncrementProcessedCategories
| Fetch (seqs : list nat).   (* imap.fetch(emailsToFetch, ..) and its listeners *)

(** The nested callbacks of an operation: a command node holds the callback
    that the IMAP client invokes with the command's result, an error (given
    by its [err.code]) or a value. *)
Inductive Script :=
| Done                                   (* the callback returns *)
| Throw                                  (* an uncaught TypeError *)
| Do (a : Action) (next : Script)
| GetBoxes (k : string + gmap string Box → Script)
| OpenBox (name : string) (k : string + nat → Script)
| Search (criteria : Criteria) (k : string + option (list nat) → Script)
| AddFlags (seqs : list nat) (flag : string) (k : option string → Script)
| Expunge (k : option string → Script).

(** A message handler of the fetch stream: [simpleParser] runs, then the
    callback awaits [Email.findOne], then [newEmail.save()]. *)
Inductive Task :=
| Parsing
| Finding (parsed : Parsed)
| Saving (doc : Email)
| Finished.

(** The variables the handlers of an operation share, and the collection.
    [fetchCompleted] to [processedCount] belong to [fetchGmailEmails],
    [deletedCounts] and [processedCategories] to [deleteGmailEmails];
    [awaiting] is the callback the IMAP client still has to invoke. *)
Record State := {
  promise : Promise;
  endCalls : nat;                 (* how often imap.end() was invoked *)
  connectionTimeout : Timer;
  operationTimeout : Timer;
  closeDelay : Timer;             (* the 2 s timer of the stream's 'end' handler *)
  readyListener : bool;           (* imap.once('ready', ..) not yet run *)
  errorListener : bool;
  endListener : bool;
  awaiting : Script;
  fetchCompleted : bool;
  emails : list Email;
  fetchStream : option (list nat);
  fetchErrorListener : bool;
  fetchEndListener : bool;
  tasks : list Task;
  processedCount : nat;
  store : list Email;
  deletedCounts : gmap string nat;
  processedCategories : nat;
}.

(** Assignments to the variables. *)
Definition set_promise (v : Promise) (s : State) : State :=
  {| promise := v; endCalls := endCalls s;
     connectionTimeout := connectionTimeout s;
     operationTimeout := operationTimeout s; closeDelay := closeDelay s;
     readyListener := readyListener s; errorListener := errorListener s;
     endListener := endListener s; awaiting := awaiting s;
     fetchCompleted := fetchCompleted s; emails := emails s;
     fetchStream := fetchStream s;
     fetchErrorListener := fetchErrorListener s;
     fetchEndListener := fetchEndListener s; tasks := tasks s;
     processedCount := processedCount s; store := store s;
     deletedCounts := deletedCounts s;
     processedCategories := processedCategories s |}.

Definition set_endCalls (v : nat) (s : State) : State :=
  {| promise := promise s; endCalls := v;
     connectionTimeout := connectionTimeout s;
     operationTimeout := operationTimeout s; closeDelay := closeDelay s;
     readyListener := readyListener s; errorListener := errorListener s;
     endListener := endListener s; awaiting := awaiting s;
     fetchCompleted := fetchCompleted s; emails := emails s;
     fetchStream := fetchStream s;
     fetchErrorListener := fetchErrorListener s;
     fetchEndListener := fetchEndListener s; tasks := tasks s;
     processedCount := processedCount s; store := store s;
     deletedCounts := deletedCounts s;
     processedCategories := processedCategories s |}.

Definition set_connectionTimeout (v : Timer) (s : State) : State :=
  {| promise := promise s; endCalls := endCalls s; connectionTimeout := v;
     operationTimeout := operationTimeout s; closeDelay := closeDelay s;
     readyListener := readyListener s; errorListener := errorListener s;
     endListener := endListener s; awaiting := awaiting s;
     fetchCompleted := fetchCompleted s; emails := emails s;
     fetchStream := fetchStream s;
     fetchErrorListener := fetchErrorListener s;
     fetchEndListener := fetchEndListener s; tasks := tasks s;
     processedCount := processedCount s; store := store s;
     deletedCounts := deletedCounts s;
     processedCategories := processedCategories s |}.

Definition set_operationTimeout (v : Timer) (s : State) : State :=
  {| promise := promise s; endCalls := endCalls s;
     connectionTimeout := connectionTimeout s; operationTimeout := v;
     closeDelay := closeDelay s; readyListener := readyListener s;
     errorListener := errorListener s; endListener := endListener s;
     awaiting := awaiting s; fetchCompleted := fetchCompleted s;
     emails := emails s; fetchStream := fetchStream s;
     fetchErrorListener := fetchErrorListener s;
     fetchEndListener := fetchEndListener s; tasks := tasks s;
     processedCount := processedCount s; store := store s;
     deletedCounts := deletedCounts s;
     processedCategories := processedCategories s |}.

Definition set_closeDelay (v : Timer) (s : State) : State :=
  {| promise := promise s; endCalls := endCalls s;
     connectionTimeout := connectionTimeout s;
     operationTimeout := operationTimeout s; closeDelay := v;
     readyListener := readyListener s; errorListener := errorListener s;
     endListener := endListener s; awaiting := awaiting s;
     fetchCompleted := fetchCompleted s; emails := emails s;
     fetchStream := fetchStream s;
     fetchErrorListener := fetchErrorListener s;
     fetchEndListener := fetchEndListener s; tasks := tasks s;
     processedCount := processedCount s; store := store s;
     deletedCounts := deletedCounts s;
     processedCategories := processedCategories s |}.

Definition set_readyListener (v : bool) (s : State) : State :=
  {| promise := promise s; endCalls := endCalls s;
     connectionTimeout := connectionTimeout s;
     operationTimeout := operationTimeout s; closeDelay := closeDelay s;
     readyListener := v; errorListener := errorListener s;
     endListener := endListener s; awaiting := awaiting s;
     fetchCompleted := fetchCompleted s; emails := emails s;
     fetchStream := fetchStream s;
     fetchErrorListener := fetchErrorListener s;
     fetchEndListener := fetchEndListener s; tasks := tasks s;
     processedCount := processedCount s; store := store s;
     deletedCounts := deletedCounts s;
     processedCategories := processedCategories s |}.

Definition set_errorListener (v : bool) (s : State) : State :=
  {| promise := promise s; endCalls := endCalls s;
     connectionTimeout := connectionTimeout s;
     operationTimeout := operationTimeout s; closeDelay := closeDelay s;
     readyListener := readyListener s; errorListener := v;
     endListener := endListener s; awaiting := awaiting s;
     fetchCompleted := fetchCompleted s; emails := emails s;
     fetchStream := fetchStream s;
     fetchErrorListener := fetchErrorListener s;
     fetchEndListener := fetchEndListener s; tasks := tasks s;
     processedCount := processedCount s; store := store s;
     deletedCounts := deletedCounts s;
     processedCategories := processedCategories s |}.

Definition set_endListener (v : bool) (s : State) : State :=
  {| promise := promise s; endCalls := endCalls s;
     connectionTimeout := connectionTimeout s;
     operationTimeout := operationTimeout s; closeDelay := closeDelay s;
     readyListener := readyListener s; errorListener := errorListener s;
     endListener := v; awaiting := awaiting s;
     fetchCompleted := fetchCompleted s; emails := emails s;
     fetchStream := fetchStream s;
     fetchErrorListener := fetchErrorListener s;
     fetchEndListener := fetchEndListener s; tasks := tasks s;
     processedCount := processedCount s; store := store s;
     deletedCounts := deletedCounts s;
     processedCategories := processedCategories s |}.

Definition set_awaiting (v : Script) (s : State) : State :=
  {| promise := promise s; endCalls := endCalls s;
     connectionTimeout := connectionTimeout s;
     operationTimeout := operationTimeout s; closeDelay := closeDelay s;
     readyListener := readyListener s; errorListener := errorListener s;
     endListener := endListener s; awaiting := v;
     fetchCompleted := fetchCompleted s; emails := emails s;
     fetchStream := fetchStream s;
     fetchErrorListener := fetchErrorListener s;
     fetchEndListener := fetchEndListener s; tasks := tasks s;
     processedCount := processedCount s; store := store s;
     deletedCounts := deletedCounts s;
     processedCategories := processedCategories s |}.

Definition set_fetchCompleted (v : bool) (s : State) : State :=
  {| promise := promise s; endCalls := endCalls s;
     connectionTimeout := connectionTimeout s;
     operationTimeout := operationTimeout s; closeDelay := closeDelay s;
     readyListener := readyListener s; errorListener := errorListener s;
     endListener := endListener s; awaiting := awaiting s;
     fetchCompleted := v; emails := emails s; fetchStream := fetchStream s;
     fetchErrorListener := fetchErrorListener s;
     fetchEndListener := fetchEndListener s; tasks := tasks s;
     processedCount := processedCount s; store := store s;
     deletedCounts := deletedCounts s;
     processedCategories := processedCategories s |}.

Definition set_emails (v : list Email) (s : State) : State :=
  {| promise := promise s; endCalls := endCalls s;
     connectionTimeout := connectionTimeout s;
     operationTimeout := operationTimeout s; closeDelay := closeDelay s;
     readyListener := readyListener s; errorListener := errorListener s;
     endListener := endListener s; awaiting := awaiting s;
     fetchCompleted := fetchCompleted s; emails := v;
     fetchStream := fetchStream s;
     fetchErrorListener := fetchErrorListener s;
     fetchEndListener := fetchEndListener s; tasks := tasks s;
     processedCount := processedCount s; store := store s;
     deletedCounts := deletedCounts s;
     processedCategories := processedCategories s |}.

Definition set_fetchStream (v : option (list nat)) (s : State) : State :=
  {| promise := promise s; endCalls := endCalls s;
     connectionTimeout := connectionTimeout s;
     operationTimeout := operationTimeout s; closeDelay := closeDelay s;
     readyListener := readyListener s; errorListener := errorListener s;
     endListener := endListener s; awaiting := awaiting s;
     fetchCompleted := fetchCompleted s; emails := emails s;
     fetchStream := v; fetchErrorListener := fetchErrorListener s;
     fetchEndListener := fetchEndListener s; tasks := tasks s;
     processedCount := processedCount s; store := store s;
     deletedCounts := deletedCounts s;
     processedCategories := processedCategories s |}.

Definition set_fetchErrorListener (v : bool) (s : State) : State :=
  {| promise := promise s; endCalls := endCalls s;
     connectionTimeout := connectionTimeout s;
     operationTimeout := operationTimeout s; closeDelay := closeDelay s;
     readyListener := readyListener s; errorListener := errorListener s;
     endListener := endListener s; awaiting := awaiting s;
     fetchCompleted := fetchCompleted s; emails := emails s;
     fetchStream := fetchStream s; fetchErrorListener := v;
     fetchEndListener := fetchEndListener s; tasks := tasks s;
     processedCount := processedCount s; store := store s;
     deletedCounts := deletedCounts s;
     processedCategories := processedCategories s |}.

Definition set_fetchEndListener (v : bool) (s : State) : State :=
  {| promise := promise s; endCalls := endCalls s;
     connectionTimeout := connectionTimeout s;
     operationTimeout := operationTimeout s; closeDelay := closeDelay s;
     readyListener := readyListener s; errorListener := errorListener s;
     endListener := endListener s; awaiting := awaiting s;
     fetchCompleted := fetchCompleted s; emails := emails s;
     fetchStream := fetchStream s;
     fetchErrorListener := fetchErrorListener s; fetchEndListener := v;
     tasks := tasks s; processedCount := processedCount s; store := store s;
     deletedCounts := deletedCounts s;
     processedCategories := processedCategories s |}.

Definition set_tasks (v : list Task) (s : State) : State :=
  {| promise := promise s; endCalls := endCalls s;
     connectionTimeout := connectionTimeout s;
     operationTimeout := operationTimeout s; closeDelay := closeDelay s;
     readyListener := readyListener s; errorListener := errorListener s;
     endListener := endListener s; awaiting := awaiting s;
     fetchCompleted := fetchCompleted s; emails := emails s;
     fetchStream := fetchStream s;
     fetchErrorListener := fetchErrorListener s;
     fetchEndListener := fetchEndListener s; tasks := v;
     processedCount := processedCount s; store := store s;
     deletedCounts := deletedCounts s;
     processedCategories := processedCategories s |}.

Definition set_processedCount (v : nat) (s : State) : State :=
  {| promise := promise s; endCalls := endCalls s;
     connectionTimeout := connectionTimeout s;
     operationTimeout := operationTimeout s; closeDelay := closeDelay s;
     readyListener := readyListener s; errorListener := errorListener s;
     endListener := endListener s; awaiting := awaiting s;
     fetchCompleted := fetchCompleted s; emails := emails s;
     fetchStream := fetchStream s;
     fetchErrorListener := fetchErrorListener s;
     fetchEndListener := fetchEndListener s; tasks := tasks s;
     processedCount := v; store := store s; deletedCounts := deletedCounts s;
     processedCategories := processedCategories s |}.

Definition set_store (v : list Email) (s : State) : State :=
  {| promise := promise s; endCalls := endCalls s;
     connectionTimeout := connectionTimeout s;
     operationTimeout := operationTimeout s; closeDelay := closeDelay s;
     readyListener := readyListener s; errorListener := errorListener s;
     endListener := endListener s; awaiting := awaiting s;
     fetchCompleted := fetchCompleted s; emails := emails s;
     fetchStream := fetchStream s;
     fetchErrorListener := fetchErrorListener s;
     fetchEndListener := fetchEndListener s; tasks := tasks s;
     processedCount := processedCount s; store := v;
     deletedCounts := deletedCounts s;
     processedCategories := processedCategories s |}.

Definition set_deletedCounts (v : gmap string nat) (s : State) : State :=
  {| promise := promise s; endCalls := endCalls s;
     connectionTimeout := connectionTimeout s;
     operationTimeout := operationTimeout s; closeDelay := closeDelay s;
     readyListener := readyListener s; errorListener := errorListener s;
     endListener := endListener s; awaiting := awaiting s;
     fetchCompleted := fetchCompleted s; emails := emails s;
     fetchStream := fetchStream s;
     fetchErrorListener := fetchErrorListener s;
     fetchEndListener := fetchEndListener s; tasks := tasks s;
     processedCount := processedCount s; store := store s;
     deletedCounts := v; processedCategories := processedCategories s |}.

Definition set_processedCategories (v : nat) (s : State) : State :=
  {| promise := promise s; endCalls := endCalls s;
     connectionTimeout := connectionTimeout s;
     operationTimeout := operationTimeout s; closeDelay := closeDelay s;
     readyListener := readyListener s; errorListener := errorListener s;
     endListener := endListener s; awaiting := awaiting s;
     fetchCompleted := fetchCompleted s; emails := emails s;
     fetchStream := fetchStream s;
     fetchErrorListener := fetchErrorListener s;
     fetchEndListener := fetchEndListener s; tasks := tasks s;
     processedCount := processedCount s; store := store s;
     deletedCounts := deletedCounts s; processedCategories := v |}.

(** The two operations with their options. *)
Inductive Operation :=
| FetchEmails (owner : nat) (limit : Z) (searchCriteria : list string)
| DeleteEmails (categories : list string).

Definition ownerOf (op : Operation) : nat :=
  match op with FetchEmails owner _ _ => owner | DeleteEmails _ => 0 end.

(** The timers an operation sets with [setTimeout], with their delays in
    milliseconds.  (Both operations also pass [connTimeout: 10000] and
    [authTimeout: 10000] to the IMAP client, whose own timeouts surface as
    'error' events.) *)
Inductive TimerName := connectionTimer | operationTimer.

#[export] Instance TimerName_eq_dec : EqDecision TimerName.
Proof. solve_decision. Defined.

Definition installedTimeouts (op : Operation) : list (TimerName * Z) :=
  match op with
  | FetchEmails _ _ _ => [(operationTimer, 30000%Z); (connectionTimer, 15000%Z)]
  | DeleteEmails _ => [(operationTimer, 600000%Z)]
  end.

Definition timer (name : TimerName) (s : State) : Timer :=
  match name with
  | connectionTimer => connectionTimeout s
  | operationTimer => operationTimeout s
  end.

Definition timeoutError (name : TimerName) : Error :=
  match name with
  | connectionTimer => ConnectionTimeout
  | operationTimer => OperationTimeout
  end.

(** The state when [imap.connect()] is called: the promise is pending, the
    listeners are registered, the operation's timers are running. *)
Definition init (op : Operation) (db : list Email) : State :=
  {| promise := Pending; endCalls := 0;
     connectionTimeout :=
       if bool_decide (connectionTimer ∈ (installedTimeouts op).*1)
       then Armed else Unset;
     operationTimeout :=
       if bool_decide (operationTimer ∈ (installedTimeouts op).*1)
       then Armed else Unset;
     closeDelay := Unset;
     readyListener := true; errorListener := true; endListener := true;
     awaiting := Done;
     fetchCompleted := false; emails := []; fetchStream := None;
     fetchErrorListener := false; fetchEndListener := false;
     tasks := []; processedCount := 0; store := db;
     deletedCounts := ∅; processedCategories := 0 |}.

(** [resolve] and [reject] settle a pending promise and do nothing to a
    settled one. *)
Definition settle (p : Promise) (s : State) : State :=
  match promise s with Pending => set_promise p s | _ => s end.

Definition perform (a : Action) (s : State) : State :=
  match a with
  | ClearConnectionTimeout =>
      set_connectionTimeout (clearTimeout (connectionTimeout s)) s
  | ClearOperationTimeout =>
      set_operationTimeout (clearTimeout (operationTimeout s)) s
  | ImapEnd => set_endCalls (S (endCalls s)) s
  | Reject e => settle (Rejected e) s
  | ResolveEmpty => settle (Resolved EmptyArray) s
  | SetDeletedCount category n =>
      set_deletedCounts (<[category := n]> (deletedCounts s)) s
  | IncrementProcessedCategories =>
      set_processedCategories (S (processedCategories s)) s
  | Fetch seqs =>
      set_fetchStream (Some seqs)
        (set_fetchErrorListener true (set_fetchEndListener true s))
  end.

(** Run a callback up to its return or to the next command it issues. *)
Fixpoint exec (sc : Script) (s : State) : State :=
  match sc with
  | Do a next => exec next (perform a s)
  | _ => set_awaiting sc s
  end.

(** [clearTimeout(operationTimeout); imap.end(); return reject(err)]. *)
Definition closeAndReject (err : string) : Script :=
  Do ClearOperationTimeout (Do ImapEnd (Do (Reject (ImapError err)) Done)).

(** [!results || results.length === 0]. *)
Definition noResults (results : option (list nat)) : bool :=
  match results with None | Some [] => true | Some (_ :: _) => false end.

(** The 'ready' handler of [fetchGmailEmails] (gmailService.js:246-357), up
    to the [imap.fetch] call. *)
Definition fetchOnReady (limit : Z) (searchCriteria : list string) : Script :=
  Do ClearConnectionTimeout
    (OpenBox "INBOX" (fun r =>
       match r with
       | inl err => closeAndReject err
       | inr _ =>
           Search (Given searchCriteria) (fun r =>
             match r with
             | inl err => closeAndReject err
             | inr results =>
                 if noResults results
                 then Do ClearOperationTimeout (Do ImapEnd (Do ResolveEmpty Done))
                 else Do (Fetch (Limit.emailsToFetch limit (default [] results))) Done
             end)
       end)).

(** [processFolders] (gmailService.js:621-705) on the folders from
    [folderIndex] on; [allDone] is what it does past the last folder. *)
Fixpoint processFolders (fs : list FolderRef) (categoryTotalDeleted : nat)
    (allDone : nat → Script) : Script :=
  match fs with
  | [] => allDone categoryTotalDeleted
  | f :: rest =>
      let next := processFolders rest categoryTotalDeleted allDone in
      OpenBox (folder f) (fun r =>
        match r with
        | inl _ => next
        | inr total =>
            if total =? 0 then next
            else
              Search (searchCriteriaFor f) (fun r =>
                match r with
                | inl _ => next
                | inr results =>
                    if noResults results then next
                    else
                      let seqs := default [] results in
                      AddFlags seqs "\Deleted" (fun err =>
                        match err with
                        | Some _ => next
                        | None =>
                            Expunge (fun err =>
                              match err with
                              | Some _ => next
                              | None =>
                                  processFolders rest
                                    (categoryTotalDeleted + length seqs) allDone
                              end)
                        end)
                end)
        end)
  end.

(** [processCategory] (gmailService.js:529-709) on the categories from
    [index] on. *)
Fixpoint processCategory (boxes : gmap string Box) (remaining : list string)
  : Script :=
  match remaining with
  | [] => Do ClearOperationTimeout (Do ImapEnd Done)
  | category :: rest =>
      let record n :=
        Do (SetDeletedCount category n)
          (Do IncrementProcessedCategories (processCategory boxes rest)) in
      match categoryMap category with
      | None => record 0
      | Some categoryConfig =>
          match foldersToProcess boxes categoryConfig with
          | TypeError => Throw
          | Folders [] => record 0
          | Folders fs => processFolders fs 0 record
          end
      end
  end.

(** The 'ready' handler of [deleteGmailEmails] (gmailService.js:502-714). *)
Definition cleanupOnReady (categories : list string) : Script :=
  GetBoxes (fun r =>
    match r with
    | inl err => closeAndReject err
    | inr boxes => processCategory boxes categories
    end).

Definition onReady (op : Operation) : Script :=
  match op with
  | FetchEmails _ limit searchCriteria => fetchOnReady limit searchCriteria
  | DeleteEmails categories => cleanupOnReady categories
  end.

(** The 'error' handlers (gmailService.js:359-383 and 716-720). *)
Definition onError (op : Operation) (code : string) (s : State) : State :=
  match op with
  | FetchEmails _ _ _ =>
      let s := perform ClearOperationTimeout (perform ClearConnectionTimeout s) in
      if bool_decide (code = "ECONNRESET") then perform (Reject ConnectionReset) s
      else if bool_decide (code = "ENOTFOUND") then perform (Reject ServerNotFound) s
      else if bool_decide (code = "ETIMEDOUT") then perform (Reject ConnectionTimedOut) s
      else perform (Reject (ImapError code)) s
  | DeleteEmails _ =>
      perform (Reject (ImapError code)) (perform ClearOperationTimeout s)
  end.

(** The 'end' handlers (gmailService.js:385-391 and 722-728). *)
Definition onEnd (op : Operation) (s : State) : State :=
  let s := perform ClearOperationTimeout s in
  match op with
  | FetchEmails _ _ _ =>
      if fetchCompleted s then settle (Resolved EmailsArray) s else s
  | DeleteEmails categories =>
      if bool_decide (processedCategories s = length categories)
      then settle (Resolved DeletedCountsObject) s else s
  end.

(** What the environment (the IMAP client, the parser, the database driver
    and the timers) can deliver to the operation. *)
Inductive Event :=
| Ready                                         (* imap 'ready' *)
| SessionError (code : string)                  (* imap 'error' *)
| SessionEnd                                    (* imap 'end' *)
| ConnectionTimeoutFires
| OperationTimeoutFires
| CloseDelayFires
| BoxesCallback (r : string + gmap string Box)
| OpenBoxCallback (r : string + nat)            (* err, or box.messages.total *)
| SearchCallback (r : string + option (list nat))
| AddFlagsCallback (r : option string)
| ExpungeCallback (r : option string)
| Message (seqno : nat)          (* stream 'message' and its 'body': parsing starts *)
| ParserCallback (i : nat) (r : option Parsed)      (* [None]: a parse error *)
| FindOneSettles (i : nat) (ok : bool) (now : Z)    (* [ok = false]: it throws *)
| SaveSettles (i : nat) (ok : bool)                 (* the database is reachable *)
| FetchError (code : string)                    (* stream 'error' *)
| FetchEnd.                                     (* stream 'end' *)

(** The end of a message handler: [processedCount++]. *)
Definition finish (i : nat) (s : State) : State :=
  set_processedCount (S (processedCount s))
    (set_tasks (<[i := Finished]> (tasks s)) s).

(** The timer callbacks (gmailService.js:240-244, 394-398, 496-500). *)
Definition onTimeout (name : TimerName) (s : State) : State :=
  perform (Reject (timeoutError name)) (perform ImapEnd s).

(** One event: [None] when nothing is waiting for it (a [once] listener that
    already ran, a timer that is not pending, a callback of a command that
    was not issued). *)
Definition step (op : Operation) (s : State) (ev : Event) : option State :=
  match ev with
  | Ready =>
      if readyListener s
      then Some (exec (onReady op) (set_readyListener false s)) else None
  | SessionError code =>
      if errorListener s
      then Some (onError op code (set_errorListener false s)) else None
  | SessionEnd =>
      if endListener s
      then Some (onEnd op (set_endListener false s)) else None
  | ConnectionTimeoutFires =>
      match connectionTimeout s with
      | Armed => Some (onTimeout connectionTimer (set_connectionTimeout Fired s))
      | _ => None
      end
  | OperationTimeoutFires =>
      match operationTimeout s with
      | Armed => Some (onTimeout operationTimer (set_operationTimeout Fired s))
      | _ => None
      end
  | CloseDelayFires =>
      match closeDelay s with
      | Armed =>
          Some (perform ImapEnd
                  (perform ClearOperationTimeout (set_closeDelay Fired s)))
      | _ => None
      end
  | BoxesCallback r =>
      match awaiting s with GetBoxes k => Some (exec (k r) s) | _ => None end
  | OpenBoxCallback r =>
      match awaiting s with OpenBox _ k => Some (exec (k r) s) | _ => None end
  | SearchCallback r =>
      match awaiting s with Search _ k => Some (exec (k r) s) | _ => None end
  | AddFlagsCallback r =>
      match awaiting s with AddFlags _ _ k => Some (exec (k r) s) | _ => None end
  | ExpungeCallback r =>
      match awaiting s with Expunge k => Some (exec (k r) s) | _ => None end
  | Message _ =>
      match fetchStream s with
      | Some _ => Some (set_tasks (tasks s ++ [Parsing]) s)
      | None => None
      end
  | ParserCallback i r =>
      match tasks s !! i with
      | Some Parsing =>
          Some match r with
               | None => finish i s
               | Some parsed => set_tasks (<[i := Finding parsed]> (tasks s)) s
               end
      | _ => None
      end
  | FindOneSettles i ok now =>
      match tasks s !! i with
      | Some (Finding parsed) =>
          Some (if ok then
                  match findOne (store s) (ownerOf op) (p_messageId parsed) with
                  | Some _ => finish i s                     (* a duplicate *)
                  | None =>
                      set_tasks
                        (<[i := Saving (newEmail (ownerOf op) parsed now)]> (tasks s)) s
                  end
                else finish i s)
      | _ => None
      end
  | SaveSettles i ok =>
      match tasks s !! i with
      | Some (Saving doc) =>
          Some match (if ok then save (store s) doc else None) with
               | Some store' =>
                   finish i (set_emails (emails s ++ [doc]) (set_store store' s))
               | None => finish i s
               end
      | _ => None
      end
  | FetchError code =>
      match fetchStream s with
      | Some _ =>
          if fetchErrorListener s
          then Some (perform (Reject (ImapError code))
                       (perform ImapEnd
                          (perform ClearOperationTimeout
                             (set_fetchErrorListener false s))))
          else None
      | None => None
      end
  | FetchEnd =>
      match fetchStream s with
      | Some _ =>
          if fetchEndListener s
          then Some (set_closeDelay Armed
                       (set_fetchCompleted true
                          (set_fetchStream None (set_fetchEndListener false s))))
          else None
      | None => None
      end
  end.

(** A history of events, from the first on. *)
Fixpoint run (op : Operation) (s : State) (evs : list Event) : option State :=
  match evs with
  | [] => Some s
  | ev :: rest =>
      match step op s ev with
      | Some s' => run op s' rest
      | None => None
      end
  end.

(** What the caller of a resolved operation holds. *)
Definition returnedEmails (s : State) : option (list Email) :=
  match promise s with
  | Resolved EmptyArray => Some []
  | Resolved EmailsArray => Some (emails s)
  | _ => None
  end.

Definition returnedCounts (s : State) : option (gmap string nat) :=
  match promise s with
  | Resolved DeletedCountsObject => Some (deletedCounts s)
  | _ => None
  end.

Definition settled (s : State) : bool :=
  match promise s with Pending => false | _ => true end.

(** No timer is left that could still run. *)
Definition noTimerPending (s : State) : bool :=
  negb (isArmed (connectionTimeout s)) && negb (isArmed (operationTimeout s))
  && negb (isArmed (closeDelay s)).

(** An IMAP server, as the commands of the cleanup see it: each command
    takes the server to a new state and has a result. *)
Class ImapServer (Srv : Type) := {
  getBoxes : Srv → Srv * (string + gmap string Box);
  openBox : Srv → string → Srv * (string + nat);
  search : Srv → Criteria → Srv * (string + option (list nat));
  addFlags : Srv → list nat → string → Srv * option string;
  expunge : Srv → Srv * option string;
}.

(** A callback chain run against a server that answers every command: each
    callback is invoked once with the server's result. *)
Fixpoint drive `{ImapServer Srv} (srv : Srv) (sc : Script) (s : State)
  : Srv * State :=
  match sc with
  | Done | Throw => (srv, set_awaiting sc s)
  | Do a next => drive srv next (perform a s)
  | GetBoxes k => let '(srv', r) := getBoxes srv in drive srv' (k r) s
  | OpenBox name k => let '(srv', r) := openBox srv name in drive srv' (k r) s
  | Search criteria k =>
      let '(srv', r) := search srv criteria in drive srv' (k r) s
  | AddFlags seqs flag k =>
      let '(srv', r) := addFlags srv seqs flag in drive srv' (k r) s
  | Expunge k => let '(srv', r) := expunge srv in drive srv' (k r) s
  end.

(** The event with which a server answers the awaited command. *)
Definition answer `{ImapServer Srv} (srv : Srv) (sc : Script)
  : option (Srv * Event) :=
  match sc with
  | GetBoxes _ => let '(srv', r) := getBoxes srv in Some (srv', BoxesCallback r)
  | OpenBox name _ =>
      let '(srv', r) := openBox srv name in Some (srv', OpenBoxCallback r)
  | Search criteria _ =>
      let '(srv', r) := search srv criteria in Some (srv', SearchCallback r)
  | AddFlags seqs flag _ =>
      let '(srv', r) := addFlags srv seqs flag in Some (srv', AddFlagsCallback r)
  | Expunge _ => let '(srv', r) := expunge srv in Some (srv', ExpungeCallback r)
  | _ => None
  end.

(** A whole cleanup against a responsive server: 'ready', the callbacks, and
    the 'end' that follows [imap.end()]. *)
Definition cleanup `{ImapServer Srv} (srv : Srv) (categories : list string)
  : Srv * State :=
  let op := DeleteEmails categories in
  let s0 := set_readyListener false (init op []) in
  let '(srv', s1) := drive srv (cleanupOnReady categories) s0 in
  (srv', if 0 <? endCalls s1 then onEnd op (set_endListener false s1) else s1).

End Session.

(** ** The [/cleanup] route (its use of the service's result) *)
Module Route.

(** [Object.values(deletedCounts).reduce((sum, count) => sum + count, 0)]. *)
Definition totalDeleted (deletedCounts : gmap string nat) : nat :=
  map_fold (fun _ count sum => sum + count) 0 deletedCounts.

(** The body of the route's success response. *)
Record Response := {
  success : bool;
  deletedCounts : gmap string nat;
  total : nat;
  categories : list string;
}.

(** The route: the response when [deleteGmailEmails] resolved, [None] (a 500
    answer) otherwise. *)
Definition cleanupRoute (categoriesToDelete : list string) (s : Session.State)
  : option Response :=
  match Session.returnedCounts s with
  | Some counts =>
      Some {| success := true; deletedCounts := counts;
              total := totalDeleted counts; categories := categoriesToDelete |}
  | None => None
  end.

End Route.


(** ** A small mail server to run the model against *)
Module Mailbox.
Import Gmail Session.

Record Msg := {
  seq : nat;
  labels : list string;
  sender : string;
}.

Inductive Command := CList | COpen | CSearch | CFlag | CExpunge.

#[export] Instance Command_eq_dec : EqDecision Command.
Proof. solve_decision. Defined.

(** The mailboxes with their messages, the selected mailbox, the messages
    flagged for deletion, and the commands the server refuses, by mailbox. *)
Record Server := {
  tree : gmap string Box;
  mail : gmap string (list Msg);
  selected : option string;
  flagged : list nat;
  refuses : list (string * Command);
}.

Definition refused (srv : Server) (c : Command) : bool :=
  match selected srv with
  | Some name => bool_decide ((name, c) ∈ refuses srv)
  | None => false
  end.

Definition select (name : string) (srv : Server) : Server :=
  {| tree := tree srv; mail := mail srv; selected := Some name;
     flagged := []; refuses := refuses srv |}.

Definition meets (c : Criteria) (m : Msg) : bool :=
  match c with
  | ALL | Given _ => true
  | X_GM_LABELS l => bool_decide (l ∈ labels m)
  | FROM from => bool_decide (is_Some (stripPrefix from (sender m)))
  end.

Definition messages (srv : Server) : list Msg :=
  match selected srv with
  | Some name => default [] (mail srv !! name)
  | None => []
  end.

#[export] Instance Server_imap : ImapServer Server := {|
  getBoxes srv :=
    if bool_decide ((EmptyString, CList) ∈ refuses srv) then (srv, inl "NO")
    else (srv, inr (tree srv));
  openBox srv name :=
    if bool_decide ((name, COpen) ∈ refuses srv) then (srv, inl "NO")
    else match mail srv !! name with
         | Some msgs => (select name srv, inr (length msgs))
         | None => (srv, inl "NONEXISTENT")
         end;
  search srv criteria :=
    if refused srv CSearch then (srv, inl "BAD")
    else (srv, inr (Some (seq <$> List.filter (meets criteria) (messages srv))));
  addFlags srv seqs flag :=
    if refused srv CFlag then (srv, Some "NO")
    else ({| tree := tree srv; mail := mail srv; selected := selected srv;
             flagged := seqs; refuses := refuses srv |}, None);
  expunge srv :=
    if refused srv CExpunge then (srv, Some "NO")
    else match selected srv with
         | Some name =>
             ({| tree := tree srv;
                 mail := <[name :=
                           List.filter
                             (fun m => negb (bool_decide (seq m ∈ flagged srv)))
                             (messages srv)]> (mail srv);
                 selected := selected srv; flagged := []; refuses := refuses srv |},
              None)
         | None => (srv, Some "NO")
         end;
|}.

Definition msg (n : nat) (ls : list string) (from : string) : Msg :=
  {| seq := n; labels := ls; sender := from |}.

(** The account of the specification's cleanup scenario: three promotional
    messages and one other in INBOX, two messages in [Promotions], five in
    [[Gmail]/Spam]. *)
Definition account (refusing : list (string * Command)) : Server :=
  {| tree := list_to_map
       [ ("INBOX", MkBox None); ("Promotions", MkBox None);
         ("[Gmail]", MkBox (Some (list_to_map [("Spam", MkBox None)]))) ];
     mail := list_to_map
       [ ("INBOX", [ msg 1 ["Promotions"] "shop@example.com";
                     msg 2 [] "alice@example.com";
                     msg 3 ["Promotions"] "deals@example.com";
                     msg 4 ["Promotions"] "noreply@example.com" ]);
         ("Promotions", [ msg 1 [] "a@example.com"; msg 2 [] "b@example.com" ]);
         ("[Gmail]/Spam", [ msg 1 [] "s1"; msg 2 [] "s2"; msg 3 [] "s3";
                            msg 4 [] "s4"; msg 5 [] "s5" ]) ];
     selected := None; flagged := []; refuses := refusing |}.

(** The two folders that "promotional" resolves to in that account. *)
Definition inboxWithLabel : FolderRef :=
  {| folder := "INBOX"; useLabel := true; labelName := Some "Promotions";
     fromFilter := None |}.

Definition promotionsFolder : FolderRef :=
  {| folder := "Promotions"; useLabel := false; labelName := None;
     fromFilter := None |}.

(** A parsed message, as [simpleParser] would deliver it. *)
Definition letter (mid from : string) : Store.Parsed :=
  {| Store.p_from := Some from; Store.p_to := Some "me@example.com";
     Store.p_subject := Some "Hello"; Store.p_text := Some "Text";
     Store.p_html := None; Store.p_messageId := Some mid;
     Store.p_inReplyTo := None; Store.p_date := Some 1000%Z |}.

(** The events of a message whose handler nothing interrupts: parsed and
    looked up, and saved unless the lookup found it ([known]). *)
Definition handled (i : nat) (seqno : nat) (m : Store.Parsed * bool)
  : list Event :=
  [ Message seqno; ParserCallback i (Some m.1); FindOneSettles i true 2000%Z ]
  ++ (if m.2 then [] else [SaveSettles i true]).

(** A fetch that finds the given messages and ends in the regular way. *)
Definition fetchHistory (seqs : list nat) (letters : list (Store.Parsed * bool))
  : list Event :=
  [ Ready; OpenBoxCallback (inr (length seqs)); SearchCallback (inr (Some seqs)) ]
  ++ concat (imap (fun i m => handled i (S i) m) letters)
  ++ [ FetchEnd; CloseDelayFires; SessionEnd ].

(** A document that is already in the collection. *)
Definition stored (owner : nat) (mid : string) : Store.Email :=
  Store.newEmail owner (letter mid "x@example.com") 500%Z.

End Mailbox.

(** ** The cleanup as the specification describes it *)
Module Spec.
Import Gmail Session.

(** The state machine of the specification for one folder: open, search,
    mark for deletion, expunge.  A folder fails at one of the four commands,
    has nothing to delete, or has its matches deleted. *)
Inductive Stage := AtOpen | AtSearch | AtFlag | AtExpunge.

Inductive FolderOutcome :=
| Failed (stage : Stage)
| Nothing                       (* an empty folder, or no match *)
| Deleted (n : nat).

(** What a folder adds to the tally of its category: the number of matches
    when both phases of the deletion succeeded, and 0 otherwise. *)
Definition contribution (o : FolderOutcome) : nat :=
  match o with Deleted n => n | _ => 0 end.

Definition folderOutcome `{ImapServer Srv} (srv : Srv) (f : FolderRef)
  : Srv * FolderOutcome :=
  match openBox srv (folder f) with
  | (srv, inl _) => (srv, Failed AtOpen)
  | (srv, inr total) =>
      if total =? 0 then (srv, Nothing)
      else
        match search srv (searchCriteriaFor f) with
        | (srv, inl _) => (srv, Failed AtSearch)
        | (srv, inr results) =>
            if noResults results then (srv, Nothing)
            else
              match addFlags srv (default [] results) "\Deleted" with
              | (srv, Some _) => (srv, Failed AtFlag)
              | (srv, None) =>
                  match expunge srv with
                  | (srv, Some _) => (srv, Failed AtExpunge)
                  | (srv, None) => (srv, Deleted (length (default [] results)))
                  end
              end
        end
  end.

(** The folders of a category, in resolution order. *)
Fixpoint folderOutcomes `{ImapServer Srv} (srv : Srv) (fs : list FolderRef)
  : Srv * list FolderOutcome :=
  match fs with
  | [] => (srv, [])
  | f :: rest =>
      let '(srv, o) := folderOutcome srv f in
      let '(srv, os) := folderOutcomes srv rest in
      (srv, o :: os)
  end.

Definition tally (os : list FolderOutcome) : nat :=
  sum_list (contribution <$> os).

(** The folders a category resolves to: none for an unknown category;
    [None] when the resolution itself breaks down. *)
Definition resolve (boxes : gmap string Box) (category : string)
  : option (list FolderRef) :=
  match categoryMap category with
  | None => Some []
  | Some cfg =>
      match foldersToProcess boxes cfg with
      | Folders fs => Some fs
      | TypeError => None
      end
  end.

(** The categories one after the other, each with the outcomes of its
    folders. *)
Fixpoint cleanupOutcomes `{ImapServer Srv} (srv : Srv)
    (boxes : gmap string Box) (categories : list string)
  : Srv * list (string * list FolderOutcome) :=
  match categories with
  | [] => (srv, [])
  | category :: rest =>
      let '(srv, os) := folderOutcomes srv (default [] (resolve boxes category)) in
      let '(srv, r) := cleanupOutcomes srv boxes rest in
      (srv, (category, os) :: r)
  end.

(** The deletion tally: each category with the sum over its folders, a later
    entry for the same name replacing an earlier one. *)
Definition countsOf (r : list (string * list FolderOutcome))
    (counts : gmap string nat) : gmap string nat :=
  foldl (fun m co => <[co.1 := tally co.2]> m) counts r.

End Spec.

(** ** Predicates used to state and prove the properties *)
Module Props.
Import Store Gmail Session.

(** A callback is tidy when it settles the promise only after it has cleared
    the operation timer and called [imap.end()]. *)
Fixpoint tidy (cleared ended : bool) (sc : Script) : Prop :=
  match sc with
  | Done | Throw => True
  | Do a next =>
      match a with
      | ClearOperationTimeout => tidy true ended next
      | ImapEnd => tidy cleared true next
      | Reject _ | ResolveEmpty =>
          cleared = true ∧ ended = true ∧ tidy cleared ended next
      | _ => tidy cleared ended next
      end
  | GetBoxes k => ∀ r, tidy false false (k r)
  | OpenBox _ k => ∀ r, tidy false false (k r)
  | Search _ k => ∀ r, tidy false false (k r)
  | AddFlags _ _ k => ∀ r, tidy false false (k r)
  | Expunge k => ∀ r, tidy false false (k r)
  end.

(** What holds of every state an operation can be in. *)
Record Invariant (op : Operation) (s : State) : Prop := {
  inv_pristine :
    readyListener s = true →
    awaiting s = Done ∧ fetchStream s = None ∧ fetchCompleted s = false;
  inv_connection : readyListener s = false → connectionTimeout s ≠ Armed;
  inv_cleanup :
    match op with
    | DeleteEmails _ => connectionTimeout s = Unset
    | FetchEmails _ _ _ => True
    end;
  inv_operationTimer :
    operationTimeout s = Armed →
    promise s = Pending ∨ promise s = Rejected ConnectionTimeout;
  inv_connectionTimer :
    connectionTimeout s = Armed →
    promise s = Pending ∨ promise s = Rejected OperationTimeout;
  inv_closed :
    settled s = true →
    1 ≤ endCalls s ∨ errorListener s = false ∨ endListener s = false;
  inv_tidy : tidy false false (awaiting s);
}.

(** A callback that neither closes the session nor starts a fetch. *)
Fixpoint quiet (sc : Script) : Prop :=
  match sc with
  | Done | Throw => True
  | Do a next => match a with ImapEnd | Fetch _ => False | _ => quiet next end
  | _ => False
  end.

(** A callback chain that closes the session, or hands it to the fetch
    stream, at most once along each of its paths. *)
Fixpoint single (sc : Script) : Prop :=
  match sc with
  | Done | Throw => True
  | Do a next =>
      match a with ImapEnd | Fetch _ => quiet next | _ => single next end
  | GetBoxes k => ∀ r, single (k r)
  | OpenBox _ k => ∀ r, single (k r)
  | Search _ k => ∀ r, single (k r)
  | AddFlags _ _ k => ∀ r, single (k r)
  | Expunge k => ∀ r, single (k r)
  end.

(** The calls of [imap.end()] made, plus those that the fetch stream and its
    2 s timer will still make. *)
Definition closers (s : State) : nat :=
  endCalls s + match fetchStream s with Some _ => 1 | None => 0 end
  + (if isArmed (closeDelay s) then 1 else 0).

Record Once (s : State) : Prop := {
  once_pristine : readyListener s = true → closers s = 0 ∧ awaiting s = Done;
  once_budget : closers s ≤ 1;
  once_single : single (awaiting s);
  once_quiet : closers s = 1 → quiet (awaiting s);
}.

(** What holds of the collection and of the message handlers during a fetch
    for [owner] that started with the collection [db]. *)
Record Reconciled (owner : nat) (db : list Email) (s : State) : Prop := {
  rec_store : store s = db ++ emails s;
  rec_emails :
    ∀ e, e ∈ emails s →
      userId e = owner ∧ status e = pending
      ∧ findOne db owner (messageId e) = None;
  rec_tasks :
    ∀ i doc, tasks s !! i = Some (Saving doc) →
      userId doc = owner ∧ status doc = pending
      ∧ findOne db owner (messageId doc) = None;
}.

(** The events of one message whose handler runs without interruption. *)
Definition handling (i seqno : nat) (parsed : Parsed) (now : Z) : list Event :=
  [ Message seqno; ParserCallback i (Some parsed);
    FindOneSettles i true now; SaveSettles i true ].

(** A callback chain that still has to record exactly the categories [todo],
    each with an assignment to [deletedCounts] followed by the increment of
    [processedCategories]; [half] says that the assignment of the current
    category is done and its increment is due. *)
Fixpoint records (half : bool) (todo : list string) (sc : Script) : Prop :=
  match sc with
  | Done | Throw => half = false
  | Do a next =>
      match a with
      | SetDeletedCount c _ =>
          half = false ∧ ∃ todo', todo = c :: todo' ∧ records true todo' next
      | IncrementProcessedCategories => half = true ∧ records false todo next
      | _ => records half todo next
      end
  | GetBoxes k => half = false ∧ ∀ r, records false todo (k r)
  | OpenBox _ k => half = false ∧ ∀ r, records false todo (k r)
  | Search _ k => half = false ∧ ∀ r, records false todo (k r)
  | AddFlags _ _ k => half = false ∧ ∀ r, records false todo (k r)
  | Expunge k => half = false ∧ ∀ r, records false todo (k r)
  end.

(** The entries written so far are those of the categories processed. *)
Definition tallied (categories : list string) (half : bool)
    (todo : list string) (s : State) : Prop :=
  ∃ processed,
    categories = processed ++ todo
    ∧ (∀ c, is_Some (deletedCounts s !! c) ↔ c ∈ processed)
    ∧ length processed = processedCategories s + (if half then 1 else 0).

Record Tallied (categories : list string) (s : State) : Prop := {
  tal_todo : ∃ todo, tallied categories false todo s
                     ∧ records false todo (awaiting s)
                     ∧ (promise s = Resolved DeletedCountsObject → todo = []);
  tal_pristine :
    readyListener s = true → awaiting s = Done ∧ tallied categories false categories s;
}.


(** The state in which the last category leaves the cleanup. *)
Definition finished (counts : gmap string nat) (processed : nat) (s : State)
  : State :=
  set_awaiting Done
    (perform ImapEnd
       (perform ClearOperationTimeout
          (set_processedCategories processed (set_deletedCounts counts s)))).

(** A category name that [categoryMap] resolves without an exception. *)
Definition resolvable (category : string) : Prop :=
  is_Some (categoryTable !! category) ∨ category ∉ objectPrototypeKeys.

(** The event with which a timer runs. *)
Definition fires (name : TimerName) : Event :=
  match name with
  | connectionTimer => ConnectionTimeoutFires
  | operationTimer => OperationTimeoutFires
  end.

Definition isSessionError (ev : Event) : bool :=
  match ev with SessionError _ => true | _ => false end.

Definition isSessionEnd (ev : Event) : bool :=
  match ev with SessionEnd => true | _ => false end.

(** An event of a history in which no timer of the operation runs and the
    fetch stream reports no error. *)
Definition regular (ev : Event) : bool :=
  match ev with
  | ConnectionTimeoutFires | OperationTimeoutFires | FetchError _ => false
  | _ => true
  end.

End Props.

(* ===================================================================== *)
(** * Part II. The properties                                             *)
(* ===================================================================== *)

Module LimitFacts.
Import Limit Session.

Lemma mostRecent_drop (n : nat) (results : list nat) :
  mostRecent n results = drop (length results - n) results.
Proof.
  unfold mostRecent.
  rewrite take_reverse. apply reverse_involutive.
Qed.


Lemma slice_last (n : nat) (results : list nat) :
  0 < n → n < length results →
  JS.slice (- Z.of_nat n) results = drop (length results - n) results.
Proof.
  intros Hpos Hlt. unfold JS.slice.
  destruct (Z.ltb_spec (- Z.of_nat n) 0) as [_ | Hge]; [| lia].
  f_equal. lia.
Qed.

Lemma last_differs_from_first (n : nat) (results : list nat) :
  0 < n → n < length results → NoDup results →
  drop (length results - n) results ≠ take n results.
Proof.
  intros Hpos Hlt Hnd Heq.
  assert (H0 : drop (length results - n) results !! 0 = take n results !! 0)
    by (rewrite Heq; reflexivity).
  rewrite lookup_drop, lookup_take_lt in H0 by lia.
  destruct (lookup_lt_is_Some_2 results 0) as [x Hx]; [lia |].
  rewrite Hx in H0.
  pose proof (NoDup_lookup _ _ _ _ Hnd H0 Hx). lia.
Qed.




(** A negative limit drops that many of the oldest matches. *)
Example negative_limit : emailsToFetch (-1) [10; 11; 12] = [11; 12].
Proof. reflexivity. Qed.

End LimitFacts.

Module SessionFacts.
Import Store Gmail Session Props.

Lemma tidy_processFolders fs total allDone :
  (∀ n, tidy false false (allDone n)) →
  tidy false false (processFolders fs total allDone).
Proof.
  intros Hdone. revert total.
  induction fs as [| f rest IH]; intros total; simpl; [apply Hdone |].
  intros [err | n]; [apply IH |].
  destruct (n =? 0); [apply IH |]. simpl.
  intros [err | results]; [apply IH |].
  destruct (noResults results); [apply IH |]. simpl.
  intros [err |]; [apply IH |]. simpl.
  intros [err |]; apply IH.
Qed.

Lemma tidy_processCategory boxes categories :
  tidy false false (processCategory boxes categories).
Proof.
  induction categories as [| c rest IH]; simpl; [done |].
  destruct (categoryMap c) as [cfg |]; [| exact IH].
  destruct (foldersToProcess boxes cfg) as [[| f fs] |]; simpl; try done.
  apply (tidy_processFolders (f :: fs)). intros n. exact IH.
Qed.

Lemma tidy_onReady op : tidy false false (onReady op).
Proof.
  destruct op as [owner limit criteria | categories]; simpl.
  - intros [err | n]; simpl; [done |].
    intros [err | results]; simpl; [done |].
    destruct (noResults results); simpl; done.
  - intros [err | boxes]; simpl; [done |]. apply tidy_processCategory.
Qed.

Lemma clearTimeout_not_armed t : clearTimeout t ≠ Armed.
Proof. destruct t; discriminate. Qed.

Lemma clearTimeout_unset t : t = Unset → clearTimeout t = Unset.
Proof. intros ->. reflexivity. Qed.

Lemma settle_frame p s :
  readyListener (settle p s) = readyListener s
  ∧ operationTimeout (settle p s) = operationTimeout s
  ∧ connectionTimeout (settle p s) = connectionTimeout s
  ∧ endCalls (settle p s) = endCalls s
  ∧ errorListener (settle p s) = errorListener s
  ∧ endListener (settle p s) = endListener s
  ∧ awaiting (settle p s) = awaiting s
  ∧ fetchStream (settle p s) = fetchStream s
  ∧ fetchCompleted (settle p s) = fetchCompleted s.
Proof. unfold settle. destruct (promise s); simpl; auto 10. Qed.

Lemma settle_promise p s :
  promise (settle p s) = match promise s with Pending => p | q => q end.
Proof. unfold settle. destruct (promise s) eqn:E; simpl; auto. Qed.

(** Settling when no timer is pending and the session is closed or has
    reported 'error' or 'end'. *)
Lemma settle_invariant op p s :
  operationTimeout s ≠ Armed → connectionTimeout s ≠ Armed →
  1 ≤ endCalls s ∨ errorListener s = false ∨ endListener s = false →
  Invariant op s → Invariant op (settle p s).
Proof.
  intros Hop Hconn Hend [H1 H2 H3 H4 H5 H6 H7].
  destruct (settle_frame p s) as (E1 & E2 & E3 & E4 & E5 & E6 & E7 & E8 & E9).
  constructor; rewrite ?E1, ?E2, ?E3, ?E4, ?E5, ?E6, ?E7, ?E8, ?E9; auto;
    intros Harmed; exfalso; auto.
Qed.

(** Rejecting from a timer callback, after [imap.end()]. *)
Lemma timeout_invariant op name s :
  timer name s ≠ Armed → 1 ≤ endCalls s →
  Invariant op s → Invariant op (settle (Rejected (timeoutError name)) s).
Proof.
  intros Hfired Hend [H1 H2 H3 H4 H5 H6 H7].
  destruct (settle_frame (Rejected (timeoutError name)) s)
    as (E1 & E2 & E3 & E4 & E5 & E6 & E7 & E8 & E9).
  pose proof (settle_promise (Rejected (timeoutError name)) s) as Ep.
  constructor; rewrite ?E1, ?E2, ?E3, ?E4, ?E5, ?E6, ?E7, ?E8, ?E9; auto.
  - intros Harmed. rewrite Ep. specialize (H4 Harmed).
    destruct name; simpl in *; [| congruence].
    destruct H4 as [-> | ->]; auto.
  - intros Harmed. rewrite Ep. specialize (H5 Harmed).
    destruct name; simpl in *; [congruence |].
    destruct H5 as [-> | ->]; auto.
Qed.

(** Running a tidy callback after 'ready'. *)
Lemma exec_invariant op sc : ∀ cleared ended s,
  tidy cleared ended sc →
  readyListener s = false →
  (cleared = true → operationTimeout s ≠ Armed) →
  (ended = true → 1 ≤ endCalls s) →
  Invariant op s → Invariant op (exec sc s).
Proof.
  induction sc as [| | a next IH | k IH | name k IH | c k IH | seqs flag k IH | k IH];
    intros cleared ended s Htidy Hready Hcl Hen Hinv;
    try (destruct Hinv; simpl; constructor; simpl; auto; congruence).
  simpl. destruct a; simpl in Htidy.
  - apply (IH cleared ended); simpl; auto. destruct Hinv as [H1 H2 H3 H4 H5 H6 H7].
    constructor; simpl; auto using clearTimeout_not_armed.
    + destruct op; auto using clearTimeout_unset.
    + intros Harmed. destruct (connectionTimeout s); discriminate || auto.
  - apply (IH true ended); simpl; auto using clearTimeout_not_armed.
    destruct Hinv as [H1 H2 H3 H4 H5 H6 H7].
    constructor; simpl; auto.
    intros Harmed. destruct (operationTimeout s); discriminate || auto.
  - apply (IH cleared true); simpl; auto; [lia |].
    destruct Hinv as [H1 H2 H3 H4 H5 H6 H7].
    constructor; simpl; auto. intros _. left. lia.
  - destruct Htidy as (-> & -> & Htidy).
    destruct (settle_frame (Rejected e) s) as (E1 & E2 & E3 & E4 & _).
    change (perform (Reject e) s) with (settle (Rejected e) s).
    apply (IH true true); rewrite ?E1, ?E2, ?E4; auto.
    apply settle_invariant; auto. apply (inv_connection _ _ Hinv Hready).
  - destruct Htidy as (-> & -> & Htidy).
    destruct (settle_frame (Resolved EmptyArray) s) as (E1 & E2 & E3 & E4 & _).
    change (perform ResolveEmpty s) with (settle (Resolved EmptyArray) s).
    apply (IH true true); rewrite ?E1, ?E2, ?E4; auto.
    apply settle_invariant; auto. apply (inv_connection _ _ Hinv Hready).
  - apply (IH cleared ended); simpl; auto.
    destruct Hinv; constructor; simpl; auto.
  - apply (IH cleared ended); simpl; auto.
    destruct Hinv; constructor; simpl; auto.
  - apply (IH cleared ended); simpl; auto.
    destruct Hinv; constructor; simpl; auto. congruence.
Qed.

Lemma init_invariant op db : Invariant op (init op db).
Proof.
  constructor; simpl; auto; try discriminate.
  destruct op; simpl; auto.
Qed.

Lemma pristine_ready op s :
  Invariant op s → awaiting s ≠ Done ∨ is_Some (fetchStream s)
                   ∨ fetchCompleted s = true →
  readyListener s = false.
Proof.
  intros Hinv Hused. destruct (readyListener s) eqn:Hready; [| done].
  destruct (inv_pristine _ _ Hinv Hready) as (Ha & Hf & Hc).
  destruct Hused as [H | [[x H] | H]]; congruence.
Qed.

Lemma callback_invariant op s sc :
  Invariant op s → awaiting s ≠ Done → tidy false false sc →
  Invariant op (exec sc s).
Proof.
  intros Hinv Hne Htidy.
  apply (exec_invariant op sc false false); auto; try discriminate.
  apply (pristine_ready op); auto.
Qed.

Ltac frame_invariant Hinv :=
  destruct Hinv as [H1 H2 H3 H4 H5 H6 H7];
  constructor; simpl in *; auto; try congruence; try discriminate.

Ltac callback_case Hinv Hstep :=
  match type of Hstep with
  | context [awaiting ?s] =>
      let Ha := fresh "Ha" in
      let Ht := fresh "Ht" in
      destruct (awaiting s) eqn:Ha; try discriminate; injection Hstep as <-;
      apply callback_invariant; auto; [congruence |];
      pose proof (inv_tidy _ _ Hinv) as Ht; rewrite Ha in Ht; apply Ht
  end.

Lemma step_invariant op s ev s' :
  Invariant op s → step op s ev = Some s' → Invariant op s'.
Proof.
  intros Hinv Hstep. destruct ev; simpl in Hstep.
  - (* Ready *)
    destruct (readyListener s) eqn:Hready; [| discriminate].
    injection Hstep as <-. pose proof (tidy_onReady op) as Htidy.
    destruct (inv_pristine _ _ Hinv Hready) as (Ha & Hf & Hc).
    destruct op as [owner limit criteria | categories]; simpl in *.
    + frame_invariant Hinv; auto using clearTimeout_not_armed.
      intros Harmed. destruct (connectionTimeout s); discriminate || auto.
    + frame_invariant Hinv.
  - (* SessionError *)
    destruct (errorListener s) eqn:Hl; [| discriminate].
    injection Hstep as <-.
    assert (Hcl : ∀ p, Invariant op
              (settle p (perform ClearOperationTimeout
                 (perform ClearConnectionTimeout (set_errorListener false s))))).
    { intros p. apply settle_invariant; simpl; auto using clearTimeout_not_armed.
      frame_invariant Hinv; auto using clearTimeout_not_armed.
      - destruct op; auto using clearTimeout_unset.
      - intros Harmed. exfalso. revert Harmed. apply clearTimeout_not_armed.
      - intros Harmed. exfalso. revert Harmed. apply clearTimeout_not_armed. }
    destruct op as [owner limit criteria | categories]; simpl.
    + repeat case_bool_decide; apply Hcl.
    + apply settle_invariant; simpl; auto using clearTimeout_not_armed.
      * pose proof (inv_cleanup _ _ Hinv) as Hu. simpl in Hu. congruence.
      * frame_invariant Hinv.
        intros Harmed. exfalso. revert Harmed. apply clearTimeout_not_armed.
  - (* SessionEnd *)
    destruct (endListener s) eqn:Hl; [| discriminate].
    injection Hstep as <-.
    assert (Hbase : Invariant op
              (perform ClearOperationTimeout (set_endListener false s))).
    { frame_invariant Hinv.
      intros Harmed. exfalso. revert Harmed. apply clearTimeout_not_armed. }
    unfold onEnd. destruct op as [owner limit criteria | categories].
    + destruct (fetchCompleted _) eqn:Hc; [| exact Hbase].
      apply settle_invariant; simpl; auto using clearTimeout_not_armed.
      apply (inv_connection _ _ Hinv). apply (pristine_ready _ _ Hinv). auto.
    + case_bool_decide; [| exact Hbase].
      apply settle_invariant; simpl; auto using clearTimeout_not_armed.
      pose proof (inv_cleanup _ _ Hinv) as Hu. simpl in Hu. congruence.
  - (* ConnectionTimeoutFires *)
    destruct (connectionTimeout s) eqn:Ht; try discriminate.
    injection Hstep as <-.
    apply (timeout_invariant op connectionTimer); simpl; auto; [lia |].
    frame_invariant Hinv. destruct op; congruence. left; lia.
  - (* OperationTimeoutFires *)
    destruct (operationTimeout s) eqn:Ht; try discriminate.
    injection Hstep as <-.
    apply (timeout_invariant op operationTimer); simpl; auto; [lia |].
    frame_invariant Hinv. left; lia.
  - (* CloseDelayFires *)
    destruct (closeDelay s) eqn:Ht; try discriminate.
    injection Hstep as <-. frame_invariant Hinv.
    + intros Harmed. exfalso. revert Harmed. apply clearTimeout_not_armed.
    + left; lia.
  - callback_case Hinv Hstep.
  - callback_case Hinv Hstep.
  - callback_case Hinv Hstep.
  - callback_case Hinv Hstep.
  - callback_case Hinv Hstep.
  - (* Message *)
    destruct (fetchStream s) eqn:Hf; try discriminate.
    injection Hstep as <-. frame_invariant Hinv.
  - (* ParserCallback *)
    destruct (tasks s !! i) as [[| | |] |]; try discriminate.
    injection Hstep as <-. destruct r; frame_invariant Hinv.
  - (* FindOneSettles *)
    destruct (tasks s !! i) as [[| | |] |]; try discriminate.
    injection Hstep as <-.
    destruct ok; [destruct (findOne _ _ _) |]; frame_invariant Hinv.
  - (* SaveSettles *)
    destruct (tasks s !! i) as [[| | |] |]; try discriminate.
    injection Hstep as <-.
    destruct (if ok then _ else _); frame_invariant Hinv.
  - (* FetchError *)
    destruct (fetchStream s) eqn:Hf; try discriminate.
    destruct (fetchErrorListener s); try discriminate.
    injection Hstep as <-.
    assert (Hready : readyListener s = false)
      by (apply (pristine_ready _ _ Hinv); rewrite Hf; eauto).
    apply settle_invariant; simpl; auto using clearTimeout_not_armed.
    + apply (inv_connection _ _ Hinv Hready).
    + left; lia.
    + frame_invariant Hinv.
      * intros Harmed. exfalso. revert Harmed. apply clearTimeout_not_armed.
      * left; lia.
  - (* FetchEnd *)
    destruct (fetchStream s) eqn:Hf; try discriminate.
    destruct (fetchEndListener s); try discriminate.
    injection Hstep as <-.
    assert (Hready : readyListener s = false)
      by (apply (pristine_ready _ _ Hinv); rewrite Hf; eauto).
    frame_invariant Hinv.
Qed.

Lemma run_invariant op evs : ∀ s s',
  Invariant op s → run op s evs = Some s' → Invariant op s'.
Proof.
  induction evs as [| ev rest IH]; simpl; intros s s' Hinv Hrun.
  - congruence.
  - destruct (step op s ev) as [s1 |] eqn:Hstep; [| discriminate].
    eapply IH; [| exact Hrun]. eapply step_invariant; eauto.
Qed.

Lemma reachable_invariant op db evs s :
  run op (init op db) evs = Some s → Invariant op s.
Proof. apply run_invariant, init_invariant. Qed.

End SessionFacts.

Module LifecycleFacts.
Import Store Gmail Session Props SessionFacts.

Lemma settle_errorListener p s : errorListener (settle p s) = errorListener s.
Proof. apply settle_frame. Qed.

Lemma settle_endListener p s : endListener (settle p s) = endListener s.
Proof. apply settle_frame. Qed.

Lemma settle_endCalls p s : endCalls (settle p s) = endCalls s.
Proof. apply settle_frame. Qed.

Lemma perform_errorListener a s : errorListener (perform a s) = errorListener s.
Proof. destruct a; simpl; auto using settle_errorListener. Qed.

Lemma perform_endListener a s : endListener (perform a s) = endListener s.
Proof. destruct a; simpl; auto using settle_endListener. Qed.

Lemma exec_errorListener sc : ∀ s, errorListener (exec sc s) = errorListener s.
Proof.
  induction sc; intros s; simpl; auto.
  rewrite IHsc. apply perform_errorListener.
Qed.

Lemma exec_endListener sc : ∀ s, endListener (exec sc s) = endListener s.
Proof.
  induction sc; intros s; simpl; auto.
  rewrite IHsc. apply perform_endListener.
Qed.

Create Rewrite HintDb listeners.
#[local] Hint Rewrite settle_errorListener settle_endListener
  perform_errorListener perform_endListener
  exec_errorListener exec_endListener : listeners.

Ltac open_step Hstep :=
  repeat match type of Hstep with
         | context [match ?x with _ => _ end] =>
             destruct x eqn:?; try discriminate
         end;
  try (injection Hstep as <-).

Lemma step_listeners op s ev s' :
  step op s ev = Some s' →
  (isSessionError ev = false → errorListener s' = errorListener s)
  ∧ (isSessionEnd ev = false → endListener s' = endListener s).
Proof.
  intros Hstep.
  destruct ev; simpl in Hstep; open_step Hstep;
    (split; intros Hev; try discriminate Hev);
    unfold onError, onEnd, onTimeout, finish;
    repeat match goal with
           | |- context [match ?x with _ => _ end] => destruct x
           | |- context [if ?x then _ else _] => destruct x
           end;
    autorewrite with listeners; simpl; autorewrite with listeners;
    reflexivity.
Qed.

(** A consumed listener means that its event is part of the history. *)
Lemma listeners_history op evs : ∀ s s',
  run op s evs = Some s' →
  (errorListener s = true → errorListener s' = false →
   ∃ code, SessionError code ∈ evs)
  ∧ (endListener s = true → endListener s' = false → SessionEnd ∈ evs).
Proof.
  induction evs as [| ev rest IH]; simpl; intros s s' Hrun.
  - injection Hrun as <-. split; congruence.
  - destruct (step op s ev) as [s1 |] eqn:Hstep; [| discriminate].
    destruct (step_listeners _ _ _ _ Hstep) as [He Hn].
    destruct (IH _ _ Hrun) as [IHe IHn]. split; intros Ht Hf.
    + destruct ev; try (destruct IHe as [c Hc];
        [rewrite He by done; done | done | exists c; by right]).
      exists code. by left.
    + destruct ev; try (right; apply IHn; [rewrite Hn by done; done | done]).
      by left.
Qed.


Lemma quiet_single sc : quiet sc → single sc.
Proof. induction sc; simpl; try done. destruct a; auto; done. Qed.

Lemma settle_closers p s : closers (settle p s) = closers s.
Proof.
  unfold closers, settle. destruct (promise s); reflexivity.
Qed.

Lemma settle_ready p s : readyListener (settle p s) = readyListener s.
Proof. apply settle_frame. Qed.

Lemma settle_awaiting p s : awaiting (settle p s) = awaiting s.
Proof. apply settle_frame. Qed.

Lemma exec_quiet sc : ∀ s,
  quiet sc →
  closers (exec sc s) = closers s ∧ quiet (awaiting (exec sc s)).
Proof.
  induction sc; intros s Hq; simpl in *; try done.
  destruct a; try done;
    match goal with
    | |- context [exec sc ?s0] => destruct (IHsc s0 Hq) as [-> Hq']
    end; (split; [| exact Hq']); simpl; auto using settle_closers.
Qed.

Lemma closers_awaiting sc s : closers (set_awaiting sc s) = closers s.
Proof. reflexivity. Qed.

Lemma exec_single sc : ∀ s,
  single sc → closers s = 0 →
  closers (exec sc s) ≤ 1 ∧ single (awaiting (exec sc s))
  ∧ (closers (exec sc s) = 1 → quiet (awaiting (exec sc s))).
Proof.
  induction sc; intros s Hs H0;
    try (simpl exec; rewrite closers_awaiting, H0; simpl awaiting;
         split; [lia |]; split; [exact Hs | lia]).
  simpl exec. destruct a; simpl in Hs;
    try (apply IHsc; [exact Hs |]; simpl; rewrite ?settle_closers; exact H0).
  - destruct (exec_quiet sc (perform ImapEnd s) Hs) as [-> Hq].
    unfold closers in *. simpl. split; [lia |].
    split; [by apply quiet_single | done].
  - destruct (exec_quiet sc (perform (Fetch seqs) s) Hs) as [-> Hq].
    unfold closers in *. simpl. destruct (fetchStream s); [lia |].
    split; [lia |]. split; [by apply quiet_single | done].
Qed.

Lemma single_processFolders fs total allDone :
  (∀ n, single (allDone n)) → single (processFolders fs total allDone).
Proof.
  intros Hdone. revert total.
  induction fs as [| f rest IH]; intros total; simpl; [apply Hdone |].
  intros [err | n]; [apply IH |].
  destruct (n =? 0); [apply IH |]. simpl.
  intros [err | results]; [apply IH |].
  destruct (noResults results); [apply IH |]. simpl.
  intros [err |]; [apply IH |]. simpl.
  intros [err |]; apply IH.
Qed.

Lemma single_processCategory boxes categories :
  single (processCategory boxes categories).
Proof.
  induction categories as [| c rest IH]; simpl; [done |].
  destruct (categoryMap c) as [cfg |]; [| exact IH].
  destruct (foldersToProcess boxes cfg) as [[| f fs] |]; simpl; try done.
  apply (single_processFolders (f :: fs)). intros n. exact IH.
Qed.

Lemma single_onReady op : single (onReady op).
Proof.
  destruct op as [owner limit criteria | categories]; simpl.
  - intros [err | n]; simpl; [done |].
    intros [err | results]; simpl; [done |].
    destruct (noResults results); simpl; done.
  - intros [err | boxes]; simpl; [done |]. apply single_processCategory.
Qed.

Lemma init_once op db : Once (init op db).
Proof. constructor; simpl; auto; done. Qed.

Lemma perform_ready a s : readyListener (perform a s) = readyListener s.
Proof. destruct a; simpl; auto using settle_ready. Qed.

Lemma perform_awaiting a s : awaiting (perform a s) = awaiting s.
Proof. destruct a; simpl; auto using settle_awaiting. Qed.

Lemma exec_ready sc : ∀ s, readyListener (exec sc s) = readyListener s.
Proof.
  induction sc; intros s; simpl; auto. rewrite IHsc. apply perform_ready.
Qed.

Lemma closers_clearOperation s :
  closers (perform ClearOperationTimeout s) = closers s.
Proof. reflexivity. Qed.

Lemma closers_clearConnection s :
  closers (perform ClearConnectionTimeout s) = closers s.
Proof. reflexivity. Qed.

Lemma closers_reject e s : closers (perform (Reject e) s) = closers s.
Proof. apply settle_closers. Qed.

Create Rewrite HintDb once.
#[local] Hint Rewrite settle_closers settle_ready settle_awaiting
  perform_ready perform_awaiting closers_clearOperation
  closers_clearConnection closers_reject : once.

Lemma once_frame s s' :
  closers s' = closers s → awaiting s' = awaiting s →
  readyListener s' = readyListener s → Once s → Once s'.
Proof.
  intros Hc Ha Hr [H1 H2 H3 H4]. constructor; rewrite ?Hc, ?Ha, ?Hr; auto.
Qed.

Lemma callback_once s sc :
  Once s → ¬ quiet (awaiting s) → single sc → Once (exec sc s).
Proof.
  intros Ho Hnq Hs.
  assert (H0 : closers s = 0).
  { pose proof (once_budget _ Ho). pose proof (once_quiet _ Ho).
    destruct (closers s) as [| [| n]]; [done | | lia]. exfalso. auto. }
  assert (Hr : readyListener s = false).
  { destruct (readyListener s) eqn:Hr; [| done].
    destruct (once_pristine _ Ho Hr) as [_ Ha]. rewrite Ha in Hnq.
    exfalso. by apply Hnq. }
  destruct (exec_single sc s Hs H0) as (Hb & Hsi & Hq).
  constructor; auto. rewrite exec_ready. congruence.
Qed.

Ltac once_callback Ho Hstep :=
  match type of Hstep with
  | context [awaiting ?s] =>
      let Ha := fresh "Ha" in
      let Ht := fresh "Ht" in
      destruct (awaiting s) eqn:Ha; try discriminate; injection Hstep as <-;
      pose proof (once_single _ Ho) as Ht; rewrite Ha in Ht;
      apply callback_once; [exact Ho | rewrite Ha; simpl; tauto | apply Ht]
  end.

Ltac once_same Ho :=
  apply (once_frame _ _) with (4 := Ho);
  unfold onError, onEnd, finish;
  repeat match goal with
         | |- context [if ?x then _ else _] => destruct x
         | |- context [match ?x with _ => _ end] => destruct x
         end;
  autorewrite with once; reflexivity.

Lemma step_once op s ev s' :
  Once s → regular ev = true → step op s ev = Some s' → Once s'.
Proof.
  intros Ho Hreg Hstep. destruct ev; try discriminate Hreg; simpl in Hstep.
  - (* Ready *)
    destruct (readyListener s) eqn:Hr; [| discriminate]. injection Hstep as <-.
    destruct (once_pristine _ Ho Hr) as [H0 Ha].
    destruct (exec_single (onReady op) (set_readyListener false s)
                (single_onReady op) H0) as (Hb & Hsi & Hq).
    constructor; auto. rewrite exec_ready. discriminate.
  - destruct (errorListener s); [| discriminate]. injection Hstep as <-.
    once_same Ho.
  - destruct (endListener s); [| discriminate]. injection Hstep as <-.
    once_same Ho.
  - (* CloseDelayFires *)
    destruct (closeDelay s) eqn:Hd; try discriminate. injection Hstep as <-.
    destruct Ho as [H1 H2 H3 H4].
    constructor; unfold closers in *; simpl in *; rewrite ?Hd in *;
      simpl in *; destruct (fetchStream s); auto; try lia.
    + intros Hr. destruct (H1 Hr). lia.
    + intros _. apply H4. lia.
  - once_callback Ho Hstep.
  - once_callback Ho Hstep.
  - once_callback Ho Hstep.
  - once_callback Ho Hstep.
  - once_callback Ho Hstep.
  - destruct (fetchStream s); [| discriminate]. injection Hstep as <-.
    once_same Ho.
  - destruct (tasks s !! i) as [[| | |] |]; try discriminate.
    injection Hstep as <-. once_same Ho.
  - destruct (tasks s !! i) as [[| | |] |]; try discriminate.
    injection Hstep as <-. once_same Ho.
  - destruct (tasks s !! i) as [[| | |] |]; try discriminate.
    injection Hstep as <-. once_same Ho.
  - (* FetchEnd *)
    destruct (fetchStream s) eqn:Hf; [| discriminate].
    destruct (fetchEndListener s); [| discriminate]. injection Hstep as <-.
    destruct Ho as [H1 H2 H3 H4].
    constructor; unfold closers in *; simpl in *; rewrite ?Hf in *;
      simpl in *; destruct (isArmed (closeDelay s)); auto; try lia.
    + intros Hr. destruct (H1 Hr). lia.
    + intros _. apply H4. lia.
Qed.

Lemma run_once op evs : ∀ s s',
  Once s → Forall (λ ev, regular ev = true) evs → run op s evs = Some s' →
  Once s'.
Proof.
  induction evs as [| ev rest IH]; simpl; intros s s' Ho Hreg Hrun.
  - congruence.
  - destruct (step op s ev) as [s1 |] eqn:Hstep; [| discriminate].
    inversion Hreg; subst. apply (IH s1 s'); auto. eapply step_once; eauto.
Qed.

(** Without a timeout and without an error of the fetch stream,
    [imap.end()] is called at most once. *)
Lemma closed_at_most_once op db evs s :
  run op (init op db) evs = Some s → Forall (λ ev, regular ev = true) evs →
  endCalls s ≤ 1.
Proof.
  intros Hrun Hreg.
  pose proof (run_once _ _ _ _ (init_once op db) Hreg Hrun) as Ho.
  pose proof (once_budget _ Ho). unfold closers in *. lia.
Qed.



Lemma clearTimeout_pending t : clearTimeout t = Armed → False.
Proof. destruct t; discriminate. Qed.






(** C7.  A session that ends before the work is done: the 'end' handler
    stops the operation timer and settles nothing, so the promise stays
    pending with no timer left to reject it. *)
Theorem early_end_leaves_promise_pending :
  (∀ owner limit criteria db,
     let op := FetchEmails owner limit criteria in
     ∃ s, run op (init op db) [Ready; SessionEnd] = Some s
          ∧ promise s = Pending ∧ noTimerPending s = true
          ∧ endListener s = false)
  ∧ (∀ category categories db,
       let op := DeleteEmails (category :: categories) in
       ∃ s, run op (init op db) [Ready; SessionEnd] = Some s
            ∧ promise s = Pending ∧ noTimerPending s = true
            ∧ endListener s = false).
Proof.
  split; intros; eexists; (split; [reflexivity |]); simpl; auto.
Qed.


End LifecycleFacts.

Module FetchFacts.
Import Store Gmail Session Props SessionFacts.

Lemma findOne_app_None st extra owner mid :
  findOne (st ++ extra) owner mid = None → findOne st owner mid = None.
Proof.
  unfold findOne. induction st as [| e st IH]; simpl; [done |].
  destruct (matches owner mid e); [done | exact IH].
Qed.

Lemma findOne_None st owner mid e :
  findOne st owner mid = None → e ∈ st → userId e = owner →
  messageId e ≠ mid.
Proof.
  unfold findOne. intros Hnone Hin Ho Hm.
  apply list_elem_of_In in Hin.
  pose proof (find_none _ _ Hnone e Hin) as Hf.
  unfold matches in Hf. rewrite !bool_decide_eq_true_2 in Hf by done.
  discriminate.
Qed.

Lemma findOne_Some_matches st owner mid e :
  findOne st owner mid = Some e →
  e ∈ st ∧ userId e = owner ∧ messageId e = mid.
Proof.
  unfold findOne. intros Hf. apply find_some in Hf as [Hin Hm].
  unfold matches in Hm. apply andb_true_iff in Hm as [H1 H2].
  apply bool_decide_eq_true in H1, H2.
  split; [by apply list_elem_of_In |]. done.
Qed.

Lemma save_Some st doc st' :
  save st doc = Some st' →
  st' = st ++ [doc] ∧ validates doc = true
  ∧ ∀ m, messageId doc = Some m → ∀ r, r ∈ st → messageId r ≠ Some m.
Proof.
  unfold save. destruct (validates doc) eqn:Hv; simpl; [| done].
  destruct (violatesUniqueIndex st doc) eqn:Hu; simpl; [done |].
  intros [= <-]. split; [done |]. split; [done |].
  intros m Hm r Hr Hrm. unfold violatesUniqueIndex in Hu. rewrite Hm in Hu.
  assert (existsb (λ r, bool_decide (messageId r = Some m)) st = true); [| congruence].
  apply existsb_exists. exists r. split; [by apply list_elem_of_In |].
  by apply bool_decide_eq_true.
Qed.

Lemma init_reconciled owner limit criteria db :
  Reconciled owner db (init (FetchEmails owner limit criteria) db).
Proof.
  constructor; simpl.
  - by rewrite app_nil_r.
  - intros e He. inversion He.
  - intros i doc H. rewrite lookup_nil in H. discriminate.
Qed.

Lemma settle_store p s : store (settle p s) = store s.
Proof. unfold settle. by destruct (promise s). Qed.

Lemma settle_emails p s : emails (settle p s) = emails s.
Proof. unfold settle. by destruct (promise s). Qed.

Lemma settle_tasks p s : tasks (settle p s) = tasks s.
Proof. unfold settle. by destruct (promise s). Qed.

Lemma perform_store a s : store (perform a s) = store s.
Proof. destruct a; simpl; auto using settle_store. Qed.

Lemma perform_emails a s : emails (perform a s) = emails s.
Proof. destruct a; simpl; auto using settle_emails. Qed.

Lemma perform_tasks a s : tasks (perform a s) = tasks s.
Proof. destruct a; simpl; auto using settle_tasks. Qed.

Lemma exec_store sc : ∀ s, store (exec sc s) = store s.
Proof.
  induction sc; intros s; simpl; auto. rewrite IHsc. apply perform_store.
Qed.

Lemma exec_emails sc : ∀ s, emails (exec sc s) = emails s.
Proof.
  induction sc; intros s; simpl; auto. rewrite IHsc. apply perform_emails.
Qed.

Lemma exec_tasks sc : ∀ s, tasks (exec sc s) = tasks s.
Proof.
  induction sc; intros s; simpl; auto. rewrite IHsc. apply perform_tasks.
Qed.

Create Rewrite HintDb data.
#[local] Hint Rewrite settle_store settle_emails settle_tasks
  perform_store perform_emails perform_tasks
  exec_store exec_emails exec_tasks : data.

Lemma reconciled_frame owner db s s' :
  store s' = store s → emails s' = emails s → tasks s' = tasks s →
  Reconciled owner db s → Reconciled owner db s'.
Proof.
  intros Hs He Ht [H1 H2 H3]. constructor; rewrite ?Hs, ?He, ?Ht; auto.
Qed.

Lemma task_update (ts : list Task) i j t doc :
  <[i := t]> ts !! j = Some (Saving doc) →
  (i = j ∧ t = Saving doc) ∨ ts !! j = Some (Saving doc).
Proof.
  destruct (decide (i = j)) as [-> | Hne].
  - destruct (decide (j < length ts)).
    + rewrite list_lookup_insert_eq by done. intros [= ->]. by left.
    + rewrite list_insert_ge by lia. by right.
  - rewrite list_lookup_insert_ne by done. by right.
Qed.

Ltac same_data Hrec :=
  apply (reconciled_frame _ _ _ _) with (4 := Hrec);
  unfold onError, onEnd, onTimeout;
  repeat match goal with
         | |- context [if ?x then _ else _] => destruct x
         | |- context [match ?x with _ => _ end] => destruct x
         end;
  autorewrite with data; reflexivity.

Lemma step_reconciled owner limit criteria db s ev s' :
  Reconciled owner db s →
  step (FetchEmails owner limit criteria) s ev = Some s' →
  Reconciled owner db s'.
Proof.
  intros Hrec Hstep. destruct ev; simpl in Hstep.
  1-11, 16-17:
    repeat match type of Hstep with
           | context [match ?x with _ => _ end] => destruct x eqn:?; try discriminate
           end; injection Hstep as <-; same_data Hrec.
  - (* Message *)
    destruct (fetchStream s); [| discriminate]. injection Hstep as <-.
    destruct Hrec as [H1 H2 H3]. constructor; simpl; auto.
    intros i doc Hl. apply lookup_app_Some in Hl as [Hl | [_ Hl]]; [eauto |].
    destruct (i - length (tasks s)) as [| n]; simpl in Hl; [discriminate |].
    rewrite lookup_nil in Hl. discriminate.
  - (* ParserCallback *)
    destruct (tasks s !! i) as [[| | |] |] eqn:Hi; try discriminate.
    injection Hstep as <-. destruct Hrec as [H1 H2 H3].
    destruct r; constructor; simpl; auto; intros j doc Hl;
      apply task_update in Hl as [[_ [=]] | Hl]; eauto.
  - (* FindOneSettles *)
    destruct (tasks s !! i) as [[| parsed | |] |] eqn:Hi; try discriminate.
    injection Hstep as <-. destruct Hrec as [H1 H2 H3].
    destruct ok; [destruct (findOne _ _ _) eqn:Hf |];
      constructor; simpl; auto; intros j doc Hl;
      apply task_update in Hl as [[_ [=]] | Hl]; eauto.
    subst doc. simpl. split; [done |]. split; [done |].
    rewrite H1 in Hf. by apply findOne_app_None in Hf.
  - (* SaveSettles *)
    destruct (tasks s !! i) as [[| | doc |] |] eqn:Hi; try discriminate.
    injection Hstep as <-. destruct Hrec as [H1 H2 H3].
    destruct (if ok then save (store s) doc else None) as [st' |] eqn:Hsave.
    + destruct ok; [| discriminate].
      apply save_Some in Hsave as (-> & _ & _).
      constructor; simpl.
      * rewrite H1. by rewrite app_assoc.
      * intros e He. apply elem_of_app in He as [He | He]; [eauto |].
        apply list_elem_of_singleton in He as ->. eauto.
      * intros j d Hl. apply task_update in Hl as [[_ [=]] | Hl]; eauto.
    + constructor; simpl; auto.
      intros j d Hl. apply task_update in Hl as [[_ [=]] | Hl]; eauto.
Qed.


Lemma run_reconciled owner limit criteria db evs : ∀ s s',
  Reconciled owner db s →
  run (FetchEmails owner limit criteria) s evs = Some s' →
  Reconciled owner db s'.
Proof.
  induction evs as [| ev rest IH]; simpl; intros s s' Hrec Hrun.
  - congruence.
  - destruct (step _ s ev) as [s1 |] eqn:Hstep; [| discriminate].
    apply (IH s1 s'); auto. eapply step_reconciled; eauto.
Qed.

Lemma filter_none {A} (P : A → Prop) `{∀ x, Decision (P x)} (l : list A) :
  (∀ x, x ∈ l → ¬ P x) → filter P l = [].
Proof.
  induction l as [| x l IH]; intros Hall; [done |].
  rewrite filter_cons_False by (apply Hall; left).
  apply IH. intros y Hy. apply Hall. by right.
Qed.

(** A successful save keeps both uniqueness properties. *)
Lemma save_unique st doc st' :
  save st doc = Some st' →
  (pairUnique st → pairUnique st')
  ∧ (identifierUnique st → identifierUnique st').
Proof.
  intros Hsave. apply save_Some in Hsave as (-> & _ & Hfresh).
  split; intros Hu.
  - intros owner m. unfold countPair. rewrite filter_app, length_app.
    destruct (decide (userId doc = owner ∧ messageId doc = Some m)) as [[Ho Hm] | Hn].
    + rewrite (filter_none _ st); [by rewrite filter_cons_True |].
      intros r Hr [_ Hrm]. by apply (Hfresh m Hm r Hr).
    + rewrite (filter_cons_False _ doc) by done. simpl.
      specialize (Hu owner m). unfold countPair in Hu. lia.
  - intros m. rewrite filter_app, length_app.
    destruct (decide (messageId doc = Some m)) as [Hm | Hn].
    + rewrite (filter_none _ st); [by rewrite filter_cons_True |].
      intros r Hr Hrm. by apply (Hfresh m Hm r Hr).
    + rewrite (filter_cons_False _ doc) by done. simpl.
      specialize (Hu m). lia.
Qed.

Lemma step_unique op s ev s' :
  step op s ev = Some s' →
  (pairUnique (store s) → pairUnique (store s'))
  ∧ (identifierUnique (store s) → identifierUnique (store s')).
Proof.
  intros Hstep.
  destruct ev; simpl in Hstep;
    try (repeat match type of Hstep with
                | context [match ?x with _ => _ end] =>
                    destruct x eqn:?; try discriminate
                end; injection Hstep as <-;
         unfold onError, onEnd, onTimeout, finish;
         repeat match goal with
                | |- context [if ?x then _ else _] => destruct x
                | |- context [match ?x with _ => _ end] => destruct x
                end;
         autorewrite with data; simpl; autorewrite with data; tauto).
  destruct (tasks s !! i) as [[| | doc |] |]; try discriminate.
  injection Hstep as <-.
  destruct ok; simpl; [| tauto].
  destruct (save (store s) doc) as [st' |] eqn:Hsave; simpl; [| tauto].
  by apply save_unique with doc.
Qed.

(** C9 (amended).  Every step of a fetch keeps the (owner, identifier) pair
    unique in the collection; it even keeps the identifier alone unique over
    all owners, which is what the collection's index enforces. *)
Theorem fetch_keeps_identifiers_unique op evs s s' :
  run op s evs = Some s' →
  (pairUnique (store s) → pairUnique (store s'))
  ∧ (identifierUnique (store s) → identifierUnique (store s')).
Proof.
  revert s. induction evs as [| ev rest IH]; simpl; intros s Hrun.
  - injection Hrun as <-. tauto.
  - destruct (step op s ev) as [s1 |] eqn:Hstep; [| discriminate].
    destruct (step_unique _ _ _ _ Hstep). destruct (IH _ Hrun). tauto.
Qed.


Import Mailbox.



(** C9 as stated fails in its last part: the pair is not the only key.  The
    lookup of owner 7 does not find the identifier that owner 8 has stored,
    yet the save is refused because of it. *)
Lemma identifier_of_another_owner_blocks_save :
  let db := [stored 8 "<list-post-42@example.org>"] in
  let doc := stored 7 "<list-post-42@example.org>" in
  findOne db 7 (messageId doc) = None
  ∧ validates doc = true
  ∧ save db doc = None.
Proof. vm_compute. repeat split. Qed.

Lemma fetch_keeps_identifiers_unique_witness :
  let op := FetchEmails 7 10 ["UNSEEN"] in
  ∃ s, run op (init op [])
         (fetchHistory [1; 2] [ (letter "<a@mail>" "ann@example.com", false);
                                (letter "<b@mail>" "bob@example.com", false) ])
       = Some s
       ∧ length (store s) = 2 ∧ pairUnique (store s).
Proof.
  intros op.
  set (history := fetchHistory _ _).
  destruct (run op (init op []) history) as [s |] eqn:Hrun;
    [| vm_compute in Hrun; discriminate].
  exists s. split; [reflexivity |]. split.
  - vm_compute in Hrun. injection Hrun as <-. reflexivity.
  - apply (fetch_keeps_identifiers_unique op history (init op []) s Hrun).
    intros owner m. unfold countPair. simpl. lia.
Defined.

(** The end-to-end scenario of the specification: three unseen messages are
    stored and returned by a first fetch; a second fetch of the same
    messages stores and returns nothing. *)
Example fetch_twice :
  let op := FetchEmails 7 10 ["UNSEEN"] in
  let letters := [ letter "<a@mail>" "ann@example.com";
                   letter "<b@mail>" "bob@example.com";
                   letter "<c@mail>" "cy@example.com" ] in
  let first := run op (init op []) (fetchHistory [1; 2; 3] ((., false) <$> letters)) in
  let db := default [] (store <$> first) in
  let second := run op (init op db) (fetchHistory [1; 2; 3] ((., true) <$> letters)) in
  (length <$> (first ≫= returnedEmails)) = Some 3
  ∧ (Forall (λ e, status e = pending) <$> (first ≫= returnedEmails)) = Some (Forall (λ e, status e = pending) db)
  ∧ length db = 3
  ∧ (second ≫= returnedEmails) = Some []
  ∧ store <$> second = Some db.
Proof. vm_compute. repeat split. Qed.

End FetchFacts.

Module TallyFacts.
Import Store Gmail Session Spec Props SessionFacts.

Lemma records_processFolders fs todo allDone : ∀ total,
  (∀ n, records false todo (allDone n)) →
  records false todo (processFolders fs total allDone).
Proof.
  induction fs as [| f rest IH]; intros total Hdone; simpl; [apply Hdone |].
  split; [done |]. intros [err | n]; [by apply IH |].
  destruct (n =? 0); [by apply IH |]. simpl. split; [done |].
  intros [err | results]; [by apply IH |].
  destruct (noResults results); [by apply IH |]. simpl. split; [done |].
  intros [err |]; [by apply IH |]. simpl. split; [done |].
  intros [err |]; by apply IH.
Qed.

Lemma records_processCategory boxes categories :
  records false categories (processCategory boxes categories).
Proof.
  induction categories as [| c rest IH]; [done |].
  assert (Hrec : ∀ n,
    records false (c :: rest)
      (Do (SetDeletedCount c n)
         (Do IncrementProcessedCategories (processCategory boxes rest)))).
  { intros n. simpl. split; [done |]. exists rest. done. }
  cbn [processCategory].
  destruct (categoryMap c) as [cfg |]; [| exact (Hrec 0)].
  destruct (foldersToProcess boxes cfg) as [[| f fs] |].
  - exact (Hrec 0).
  - by apply (records_processFolders (f :: fs)).
  - done.
Qed.

Lemma records_cleanupOnReady categories :
  records false categories (cleanupOnReady categories).
Proof.
  simpl. split; [done |]. intros [err | boxes]; [done |].
  apply records_processCategory.
Qed.

Lemma settle_counts p s :
  deletedCounts (settle p s) = deletedCounts s
  ∧ processedCategories (settle p s) = processedCategories s.
Proof. unfold settle. by destruct (promise s). Qed.

Lemma tallied_settle categories half todo p s :
  tallied categories half todo s → tallied categories half todo (settle p s).
Proof.
  intros (processed & H1 & H2 & H3). exists processed.
  destruct (settle_counts p s) as [-> ->]. done.
Qed.

(** Running a recording callback moves categories from [todo] to the
    entries. *)
Lemma exec_tallied categories sc : ∀ half todo s,
  records half todo sc → tallied categories half todo s →
  ∃ todo', tallied categories false todo' (exec sc s)
           ∧ records false todo' (awaiting (exec sc s))
           ∧ (todo = [] → todo' = []).
Proof.
  induction sc as [| | a next IH | k IH | name k IH | c k IH | seqs flag k IH | k IH];
    intros half todo s Hrec Htal; simpl in Hrec.
  1-2: subst half; exists todo; simpl; by eauto.
  2-6: destruct Hrec as [-> Hrec]; exists todo; simpl; by eauto.
  simpl. destruct a;
      try (apply (IH half todo); [exact Hrec |];
           first [exact Htal | by apply tallied_settle]).
  - (* SetDeletedCount *)
    destruct Hrec as (-> & todo' & -> & Hrec).
    destruct (IH true todo' (perform (SetDeletedCount category n) s) Hrec)
      as (todo'' & H1 & H2 & H3).
    + destruct Htal as (processed & Hc & Hk & Hl).
      exists (processed ++ [category]). simpl.
      split; [by rewrite <- app_assoc |]. split.
      * intros c. rewrite elem_of_app, list_elem_of_singleton, <- Hk.
        destruct (decide (category = c)) as [-> | Hne].
        -- rewrite lookup_insert_eq. split; eauto.
        -- rewrite lookup_insert_ne by done. split; [auto |].
           intros [H0 | H0]; [done | congruence].
      * rewrite length_app. simpl. lia.
    + exists todo''. split; [done |]. split; [done |]. discriminate.
  - (* IncrementProcessedCategories *)
    destruct Hrec as (-> & Hrec).
    apply (IH false todo); [exact Hrec |].
    destruct Htal as (processed & Hc & Hk & Hl).
    exists processed. simpl. split; [done |]. split; [done |]. lia.
Qed.

Lemma exec_promise_counts sc : ∀ s,
  promise (exec sc s) = Resolved DeletedCountsObject →
  promise s = Resolved DeletedCountsObject.
Proof.
  induction sc; intros s Hp; simpl in Hp; try done.
  apply IHsc in Hp. destruct a; simpl in Hp; try done;
    rewrite settle_promise in Hp; by destruct (promise s).
Qed.

Lemma init_tallied categories db :
  Tallied categories (init (DeleteEmails categories) db).
Proof.
  assert (Ht : tallied categories false categories
                 (init (DeleteEmails categories) db)).
  { exists []. simpl. split; [done |]. split; [| done].
    intros c. rewrite lookup_empty. split; [by intros [? ?] | inversion 1]. }
  constructor; [| done]. exists categories. simpl. done.
Qed.

Lemma tallied_unique categories todo1 todo2 s :
  tallied categories false todo1 s → tallied categories false todo2 s →
  todo1 = todo2.
Proof.
  intros (p1 & H1 & _ & L1) (p2 & H2 & _ & L2).
  assert (p1 = p2) as ->.
  { rewrite <- (take_app_length p1 todo1), <- (take_app_length p2 todo2).
    rewrite <- H1, <- H2. congruence. }
  rewrite H1 in H2. by apply app_inv_head in H2.
Qed.

Lemma tallied_frame categories s s' :
  deletedCounts s' = deletedCounts s →
  processedCategories s' = processedCategories s →
  awaiting s' = awaiting s → readyListener s' = readyListener s →
  (promise s' = Resolved DeletedCountsObject →
   promise s = Resolved DeletedCountsObject) →
  Tallied categories s → Tallied categories s'.
Proof.
  intros Hd Hn Ha Hr Hp [(todo & Ht & Hrec & Hres) Hpr].
  assert (Hsame : ∀ todo, tallied categories false todo s
                          → tallied categories false todo s').
  { intros t (processed & H1 & H2 & H3). exists processed.
    rewrite Hd, Hn. done. }
  constructor.
  - exists todo. rewrite Ha. auto.
  - rewrite Hr, Ha. intros Hready. destruct (Hpr Hready). auto.
Qed.

Lemma callback_tallied categories s sc :
  Tallied categories s → awaiting s ≠ Done →
  (∀ todo, records false todo (awaiting s) → records false todo sc) →
  Tallied categories (exec sc s).
Proof.
  intros [(todo & Ht & Hrec & Hres) Hpr] Hne Hsc.
  destruct (exec_tallied categories sc false todo s (Hsc _ Hrec) Ht)
    as (todo' & Ht' & Hrec' & Hnil).
  constructor.
  - exists todo'. split; [done |]. split; [done |].
    intros Hp. apply exec_promise_counts in Hp. auto.
  - rewrite LifecycleFacts.exec_ready. intros Hready.
    destruct (Hpr Hready). done.
Qed.

Ltac tallied_callback Htal Hstep :=
  match type of Hstep with
  | context [awaiting ?s] =>
      let Ha := fresh "Ha" in
      destruct (awaiting s) eqn:Ha; try discriminate; injection Hstep as <-;
      apply callback_tallied; [exact Htal | congruence |];
      rewrite Ha; intros todo [_ Hk]; apply Hk
  end.

Lemma settle_deletedCounts p s : deletedCounts (settle p s) = deletedCounts s.
Proof. apply settle_counts. Qed.

Lemma settle_processedCategories p s :
  processedCategories (settle p s) = processedCategories s.
Proof. apply settle_counts. Qed.

Ltac tallied_same Htal :=
  apply (tallied_frame _ _ _) with (6 := Htal);
  unfold onError, onEnd, onTimeout, finish;
  repeat match goal with
         | |- context [if ?x then _ else _] => destruct x
         | |- context [match ?x with _ => _ end] => destruct x
         end;
  simpl;
  rewrite ?settle_promise, ?settle_deletedCounts, ?settle_processedCategories,
    ?LifecycleFacts.settle_awaiting, ?LifecycleFacts.settle_ready;
  simpl;
  try reflexivity;
  try (destruct (promise _); simpl; congruence).

Lemma step_tallied categories s ev s' :
  Tallied categories s →
  step (DeleteEmails categories) s ev = Some s' → Tallied categories s'.
Proof.
  intros Htal Hstep. destruct ev; simpl in Hstep.
  - (* Ready *)
    destruct (readyListener s) eqn:Hr; [| discriminate]. injection Hstep as <-.
    destruct (tal_pristine _ _ Htal Hr) as [Ha Ht].
    destruct Htal as [(todo & Ht' & Hrec & Hres) Hpr].
    constructor; simpl; [| discriminate].
    exists categories. split; [exact Ht |]. split.
    + split; [done |]. intros [err | boxes]; [done |].
      apply records_processCategory.
    + intros Hp. rewrite <- (tallied_unique _ _ _ _ Ht' Ht). auto.
  - destruct (errorListener s); [| discriminate]. injection Hstep as <-.
    tallied_same Htal.
  - (* SessionEnd *)
    destruct (endListener s); [| discriminate]. injection Hstep as <-.
    unfold onEnd. case_bool_decide as Hall; [| tallied_same Htal].
    destruct Htal as [(todo & Ht & Hrec & Hres) Hpr].
    assert (Hnil : todo = []).
    { destruct Ht as (processed & H1 & _ & H3). simpl in Hall.
      apply (f_equal length) in H1. rewrite length_app in H1.
      destruct todo; [done | simpl in H1; lia]. }
    subst todo.
    assert (Hsame : ∀ todo p, tallied categories false todo s
              → tallied categories false todo
                  (settle p (perform ClearOperationTimeout (set_endListener false s)))).
    { intros t p (processed & H1 & H2 & H3). exists processed.
      destruct (settle_counts p (perform ClearOperationTimeout (set_endListener false s)))
        as [-> ->]. done. }
    constructor.
    + exists []. rewrite LifecycleFacts.settle_awaiting. simpl. auto.
    + rewrite LifecycleFacts.settle_ready, LifecycleFacts.settle_awaiting. simpl.
      intros Hready. destruct (Hpr Hready). auto.
  - destruct (connectionTimeout s); try discriminate. injection Hstep as <-.
    tallied_same Htal.
  - destruct (operationTimeout s); try discriminate. injection Hstep as <-.
    tallied_same Htal.
  - destruct (closeDelay s); try discriminate. injection Hstep as <-.
    tallied_same Htal.
  - tallied_callback Htal Hstep.
  - tallied_callback Htal Hstep.
  - tallied_callback Htal Hstep.
  - tallied_callback Htal Hstep.
  - tallied_callback Htal Hstep.
  - destruct (fetchStream s); [| discriminate]. injection Hstep as <-.
    tallied_same Htal.
  - destruct (tasks s !! i) as [[| | |] |]; try discriminate.
    injection Hstep as <-. tallied_same Htal.
  - destruct (tasks s !! i) as [[| | |] |]; try discriminate.
    injection Hstep as <-. tallied_same Htal.
  - destruct (tasks s !! i) as [[| | |] |]; try discriminate.
    injection Hstep as <-. tallied_same Htal.
  - destruct (fetchStream s); [| discriminate].
    destruct (fetchErrorListener s); [| discriminate]. injection Hstep as <-.
    tallied_same Htal.
  - destruct (fetchStream s); [| discriminate].
    destruct (fetchEndListener s); [| discriminate]. injection Hstep as <-.
    tallied_same Htal.
Qed.

Lemma run_tallied categories evs : ∀ s s',
  Tallied categories s →
  run (DeleteEmails categories) s evs = Some s' → Tallied categories s'.
Proof.
  induction evs as [| ev rest IH]; simpl; intros s s' Htal Hrun.
  - congruence.
  - destruct (step _ s ev) as [s1 |] eqn:Hstep; [| discriminate].
    apply (IH s1 s'); auto. eapply step_tallied; eauto.
Qed.

(** In whatever way the events arrive, a cleanup that resolved returns an
    entry for each requested category and for nothing else. *)
Lemma resolved_counts_names categories db evs s counts :
  run (DeleteEmails categories) (init (DeleteEmails categories) db) evs = Some s →
  returnedCounts s = Some counts →
  ∀ c, c ∈ categories ↔ is_Some (counts !! c).
Proof.
  intros Hrun Hret.
  destruct (run_tallied _ _ _ _ (init_tallied categories db) Hrun)
    as [(todo & (processed & Hc & Hk & _) & _ & Hres) _].
  unfold returnedCounts in Hret.
  destruct (promise s) as [| [| |] |]; try discriminate. injection Hret as <-.
  rewrite (Hres eq_refl), app_nil_r in Hc. subst processed.
  intros c. by rewrite Hk.
Qed.

End TallyFacts.

Module CleanupFacts.
Import Store Gmail Session Spec Props SessionFacts.

Section Server.
Context `{ImapServer Srv}.

(** One folder of the callback chain is one folder of the specification. *)
Lemma processFolders_step (srv : Srv) f rest total allDone s :
  drive srv (processFolders (f :: rest) total allDone) s
  = drive (folderOutcome srv f).1
      (processFolders rest (total + contribution (folderOutcome srv f).2) allDone) s.
Proof.
  unfold folderOutcome. simpl.
  destruct (openBox srv (folder f)) as [srv1 [err | n]]; simpl;
    [by rewrite Nat.add_0_r |].
  destruct (n =? 0); simpl; [by rewrite Nat.add_0_r |].
  destruct (search srv1 (searchCriteriaFor f)) as [srv2 [err | results]]; simpl;
    [by rewrite Nat.add_0_r |].
  destruct (noResults results); simpl; [by rewrite Nat.add_0_r |].
  destruct (addFlags srv2 (default [] results) "\Deleted") as [srv3 [err |]];
    simpl; [by rewrite Nat.add_0_r |].
  destruct (expunge srv3) as [srv4 [err |]]; simpl; [by rewrite Nat.add_0_r |].
  reflexivity.
Qed.

Lemma processFolders_drive fs : ∀ (srv : Srv) total allDone s,
  drive srv (processFolders fs total allDone) s
  = drive (folderOutcomes srv fs).1
      (allDone (total + tally (folderOutcomes srv fs).2)) s.
Proof.
  induction fs as [| f rest IH]; intros srv total allDone s.
  - simpl. unfold tally. simpl. by rewrite Nat.add_0_r.
  - rewrite processFolders_step, IH. simpl.
    destruct (folderOutcome srv f) as [srv1 o]. simpl.
    destruct (folderOutcomes srv1 rest) as [srv2 os]. simpl.
    unfold tally. simpl. by rewrite Nat.add_assoc.
Qed.

Lemma resolvable_resolve boxes category :
  resolvable category → is_Some (resolve boxes category).
Proof.
  unfold resolvable, resolve, categoryMap. intros Hr.
  destruct (categoryTable !! category) as [cfg |] eqn:Hc.
  - (* an own entry: its folders are defined *)
    assert (Hf : is_Some (folders cfg)).
    { unfold categoryTable in Hc. apply elem_of_list_to_map_2 in Hc.
      repeat (apply elem_of_cons in Hc as [[= _ ->] | Hc]; [by eexists |]).
      inversion Hc. }
    destruct Hf as [candidates Hf].
    unfold foldersToProcess, probe. rewrite Hf.
    destruct (truthy (label cfg)); [| destruct (truthy (searchFrom cfg))];
      destruct (firstExisting boxes candidates); eauto.
  - destruct Hr as [[? ?] | Hr]; [done |].
    rewrite bool_decide_eq_false_2 by done. eauto.
Qed.

Lemma finished_record counts processed category n s :
  finished counts processed
    (perform IncrementProcessedCategories (perform (SetDeletedCount category n) s))
  = finished counts processed s.
Proof. reflexivity. Qed.

(** A category that resolves: its folders, then the entry in the tally. *)
Lemma processCategory_step boxes c rest fs (srv : Srv) s :
  resolve boxes c = Some fs →
  drive srv (processCategory boxes (c :: rest)) s
  = drive (folderOutcomes srv fs).1 (processCategory boxes rest)
      (perform IncrementProcessedCategories
         (perform (SetDeletedCount c (tally (folderOutcomes srv fs).2)) s)).
Proof.
  intros Hfs. simpl. unfold resolve in Hfs.
  destruct (categoryMap c) as [cfg |].
  - destruct (foldersToProcess boxes cfg) as [[| f fs'] |];
      try discriminate; injection Hfs as <-; [reflexivity |].
    by rewrite processFolders_drive.
  - injection Hfs as <-. reflexivity.
Qed.

(** A category whose resolution throws: the chain stops there. *)
Lemma processCategory_throw boxes c rest (srv : Srv) s :
  resolve boxes c = None →
  drive srv (processCategory boxes (c :: rest)) s = (srv, set_awaiting Throw s).
Proof.
  intros Hfs. simpl. unfold resolve in Hfs.
  destruct (categoryMap c) as [cfg |]; [| discriminate].
  destruct (foldersToProcess boxes cfg) as [[| f fs'] |]; try discriminate.
  reflexivity.
Qed.

Lemma unresolvable_resolve boxes category :
  ¬ resolvable category → resolve boxes category = None.
Proof.
  unfold resolvable, resolve, categoryMap. intros Hn.
  destruct (categoryTable !! category) as [cfg |] eqn:Hc.
  - exfalso. apply Hn. left. eauto.
  - destruct (decide (category ∈ objectPrototypeKeys)) as [Hin | Hout].
    + rewrite bool_decide_eq_true_2 by done. reflexivity.
    + exfalso. apply Hn. by right.
Qed.

(** The callback chain computes the specification's tally. *)
Lemma processCategory_drive boxes categories : ∀ (srv : Srv) s,
  Forall resolvable categories →
  drive srv (processCategory boxes categories) s
  = ((cleanupOutcomes srv boxes categories).1,
     finished (countsOf (cleanupOutcomes srv boxes categories).2 (deletedCounts s))
       (processedCategories s + length categories) s).
Proof.
  induction categories as [| c rest IH]; intros srv s Hres.
  - simpl. unfold finished. rewrite Nat.add_0_r. by destruct s.
  - inversion Hres as [| ? ? Hc Hrest]; subst.
    destruct (resolvable_resolve boxes c Hc) as [fs Hfs].
    rewrite (processCategory_step _ _ _ fs), IH by done.
    rewrite finished_record.
    simpl. rewrite Hfs. simpl.
    destruct (folderOutcomes srv fs) as [srv1 os]. simpl.
    destruct (cleanupOutcomes srv1 boxes rest) as [srv2 r]. simpl.
    f_equal. f_equal. lia.
Qed.

(** With a category that does not resolve, the chain never closes the
    session and never settles. *)
Lemma processCategory_stuck boxes categories : ∀ (srv : Srv) s,
  ¬ Forall resolvable categories →
  promise (drive srv (processCategory boxes categories) s).2 = promise s
  ∧ endCalls (drive srv (processCategory boxes categories) s).2 = endCalls s.
Proof.
  induction categories as [| c rest IH]; intros srv s Hn.
  - exfalso. apply Hn. constructor.
  - destruct (decide (resolvable c)) as [Hc | Hc].
    + destruct (resolvable_resolve boxes c Hc) as [fs Hfs].
      rewrite (processCategory_step _ _ _ fs) by done.
      destruct (IH (folderOutcomes srv fs).1
                  (perform IncrementProcessedCategories
                     (perform (SetDeletedCount c (tally (folderOutcomes srv fs).2)) s)))
        as [-> ->]; [| done].
      intros Hrest. apply Hn. by constructor.
    + rewrite processCategory_throw by (by apply unresolvable_resolve). done.
Qed.

(** *** The callback chain against a server is a history of the session *)

Lemma perform_awaiting_swap a sc s :
  perform a (set_awaiting sc s) = set_awaiting sc (perform a s).
Proof.
  destruct a; simpl; try reflexivity; unfold settle; simpl;
    destruct (promise s); reflexivity.
Qed.

Lemma exec_awaiting sc : ∀ x s, exec sc (set_awaiting x s) = exec sc s.
Proof.
  induction sc; intros x s; simpl; try reflexivity.
  by rewrite perform_awaiting_swap, IHsc.
Qed.

Lemma drive_history op sc : ∀ (srv : Srv) s,
  ∃ evs, run op (exec sc s) evs = Some (drive srv sc s).2.
Proof.
  induction sc as [| | a next IH | k IH | name k IH | c k IH | seqs flag k IH | k IH];
    intros srv s; simpl;
    try (by exists []);
    try apply IH.
  - destruct (getBoxes srv) as [srv' r]. destruct (IH r srv' s) as [evs Hevs].
    exists (BoxesCallback r :: evs). simpl. by rewrite exec_awaiting.
  - destruct (openBox srv name) as [srv' r]. destruct (IH r srv' s) as [evs Hevs].
    exists (OpenBoxCallback r :: evs). simpl. by rewrite exec_awaiting.
  - destruct (search srv c) as [srv' r]. destruct (IH r srv' s) as [evs Hevs].
    exists (SearchCallback r :: evs). simpl. by rewrite exec_awaiting.
  - destruct (addFlags srv seqs flag) as [srv' r].
    destruct (IH r srv' s) as [evs Hevs].
    exists (AddFlagsCallback r :: evs). simpl. by rewrite exec_awaiting.
  - destruct (expunge srv) as [srv' r]. destruct (IH r srv' s) as [evs Hevs].
    exists (ExpungeCallback r :: evs). simpl. by rewrite exec_awaiting.
Qed.

Lemma run_app op evs1 : ∀ s evs2,
  run op s (evs1 ++ evs2) = run op s evs1 ≫= λ s', run op s' evs2.
Proof.
  induction evs1 as [| ev rest IH]; intros s evs2; simpl; [done |].
  destruct (step op s ev); simpl; [apply IH | done].
Qed.

Lemma drive_endListener sc : ∀ (srv : Srv) s,
  endListener (drive srv sc s).2 = endListener s.
Proof.
  induction sc as [| | a next IH | k IH | name k IH | c k IH | seqs flag k IH | k IH];
    intros srv s; simpl; try reflexivity.
  - rewrite IH. apply LifecycleFacts.perform_endListener.
  - destruct (getBoxes srv) as [srv' r]. apply IH.
  - destruct (openBox srv name) as [srv' r]. apply IH.
  - destruct (search srv c) as [srv' r]. apply IH.
  - destruct (addFlags srv seqs flag) as [srv' r]. apply IH.
  - destruct (expunge srv) as [srv' r]. apply IH.
Qed.

(** The result of [cleanup] is a state of the session that a history of
    events leads to. *)
Lemma cleanup_history (srv : Srv) categories :
  ∃ evs, run (DeleteEmails categories) (init (DeleteEmails categories) []) evs
         = Some (cleanup srv categories).2.
Proof.
  unfold cleanup.
  set (op := DeleteEmails categories).
  set (s0 := set_readyListener false (init op [])).
  assert (Hready : ∀ rest,
             run op (init op []) (Ready :: rest)
             = run op (exec (cleanupOnReady categories) s0) rest)
    by reflexivity.
  destruct (drive_history op (cleanupOnReady categories) srv s0) as [evs Hevs].
  pose proof (drive_endListener (cleanupOnReady categories) srv s0) as Hl.
  destruct (drive srv (cleanupOnReady categories) s0) as [srv' s1].
  simpl in Hl |- *. cbn [snd] in Hevs.
  destruct (0 <? endCalls s1).
  - exists (Ready :: evs ++ [SessionEnd]).
    rewrite Hready, run_app, Hevs. simpl. by rewrite Hl.
  - exists (Ready :: evs). by rewrite Hready.
Qed.


(** *** The tally *)

Lemma cleanupOutcomes_names boxes categories : ∀ (srv : Srv),
  (cleanupOutcomes srv boxes categories).2.*1 = categories.
Proof.
  induction categories as [| c rest IH]; intros srv; simpl; [done |].
  destruct (folderOutcomes srv _) as [srv1 os].
  specialize (IH srv1). destruct (cleanupOutcomes srv1 boxes rest) as [srv2 r].
  simpl in *. by f_equal.
Qed.

Lemma cleanupOutcomes_folders boxes categories : ∀ (srv : Srv) c os,
  (c, os) ∈ (cleanupOutcomes srv boxes categories).2 →
  ∃ srv', os = (folderOutcomes srv' (default [] (resolve boxes c))).2.
Proof.
  induction categories as [| c0 rest IH]; intros srv c os Hin; simpl in Hin.
  - inversion Hin.
  - destruct (folderOutcomes srv (default [] (resolve boxes c0))) as [srv1 os0] eqn:Hf.
    specialize (IH srv1 c os).
    destruct (cleanupOutcomes srv1 boxes rest) as [srv2 r]. simpl in *.
    apply elem_of_cons in Hin as [[= -> ->] | Hin]; [| by apply IH].
    exists srv. by rewrite Hf.
Qed.

Lemma countsOf_app r1 r2 counts :
  countsOf (r1 ++ r2) counts = countsOf r2 (countsOf r1 counts).
Proof. unfold countsOf. apply foldl_app. Qed.

Lemma countsOf_other r : ∀ counts c,
  c ∉ r.*1 → countsOf r counts !! c = counts !! c.
Proof.
  induction r as [| [c0 os] r IH]; intros counts c Hc; simpl; [done |].
  apply not_elem_of_cons in Hc as [Hne Hc]. simpl in Hne.
  change (countsOf r (<[c0 := tally os]> counts) !! c = counts !! c).
  rewrite IH by done. by rewrite lookup_insert_ne.
Qed.

(** The entry of a name is the tally of its last pass. *)
Lemma countsOf_last pre c os post counts :
  c ∉ post.*1 →
  countsOf (pre ++ (c, os) :: post) counts !! c = Some (tally os).
Proof.
  intros Hc. rewrite countsOf_app.
  change (countsOf post (<[c := tally os]> (countsOf pre counts)) !! c
          = Some (tally os)).
  rewrite countsOf_other by done. apply lookup_insert_eq.
Qed.

Lemma countsOf_dom r : ∀ counts c,
  is_Some (countsOf r counts !! c) ↔ c ∈ r.*1 ∨ is_Some (counts !! c).
Proof.
  induction r as [| [c0 os] r IH]; intros counts c; simpl.
  - split; [by right | intros [H0 | H0]; [inversion H0 | done]].
  - change (is_Some (countsOf r (<[c0 := tally os]> counts) !! c)
            ↔ c ∈ c0 :: r.*1 ∨ is_Some (counts !! c)).
    rewrite IH, elem_of_cons. destruct (decide (c0 = c)) as [-> | Hne].
    + rewrite lookup_insert_eq. split; [auto | intros _; right; eauto].
    + rewrite lookup_insert_ne by done. split; [tauto |].
      intros [[-> | H0] | H0]; tauto.
Qed.

Lemma last_entry (r : list (string * list FolderOutcome)) c :
  c ∈ r.*1 → ∃ pre os post, r = pre ++ (c, os) :: post ∧ c ∉ post.*1.
Proof.
  induction r as [| [c0 os0] r IH]; intros Hin; [inversion Hin |].
  destruct (decide (c ∈ r.*1)) as [Hr | Hr].
  - destruct (IH Hr) as (pre & os & post & -> & Hpost).
    by exists ((c0, os0) :: pre), os, post.
  - apply elem_of_cons in Hin as [-> | Hin]; [| done].
    by exists [], os0, r.
Qed.

Lemma tally_failed os :
  Forall (λ o, ∃ stage, o = Failed stage) os → tally os = 0.
Proof.
  unfold tally. induction 1 as [| o os [stage ->] _ IH]; simpl; [done |].
  exact IH.
Qed.

(** The route's total is the sum of the entries of the requested names. *)
Lemma totalDeleted_sum (names : list string) : ∀ (counts : gmap string nat),
  NoDup names → (∀ c, c ∈ names ↔ is_Some (counts !! c)) →
  Route.totalDeleted counts
  = sum_list ((λ c, default 0 (counts !! c)) <$> names).
Proof.
  unfold Route.totalDeleted.
  induction names as [| c names IH]; intros counts Hnd Hdom.
  - assert (counts = ∅) as ->.
    { apply map_empty. intros c. apply eq_None_not_Some. rewrite <- Hdom.
      by apply not_elem_of_nil. }
    by rewrite map_fold_empty.
  - inversion Hnd as [| ? ? Hc Hnd']; subst.
    destruct (proj1 (Hdom c) ltac:(left)) as [n Hn].
    rewrite <- (insert_delete_id counts c n Hn) at 1.
    rewrite map_fold_insert_L.
    + rewrite (IH (delete c counts) Hnd').
      * simpl. rewrite Hn. simpl. rewrite Nat.add_comm. f_equal.
        apply (f_equal sum_list). apply list_fmap_ext. intros i c' Hi.
        rewrite lookup_delete_ne; [done |].
        intros <-. apply Hc. by apply list_elem_of_lookup_2 in Hi.
      * intros c'. rewrite lookup_delete_is_Some, <- Hdom, elem_of_cons.
        split; [intros H0; split; [by intros <- | by right] |].
        intros [Hne [-> | H0]]; done.
    + intros; lia.
    + apply lookup_delete_eq.
Qed.

(** *** The whole cleanup *)

Lemma cleanup_resolved (srv srv1 : Srv) boxes categories :
  getBoxes srv = (srv1, inr boxes) → Forall resolvable categories →
  promise (cleanup srv categories).2 = Resolved DeletedCountsObject
  ∧ deletedCounts (cleanup srv categories).2
    = countsOf (cleanupOutcomes srv1 boxes categories).2 ∅
  ∧ processedCategories (cleanup srv categories).2 = length categories
  ∧ endCalls (cleanup srv categories).2 = 1.
Proof.
  intros Hboxes Hres. unfold cleanup. simpl. rewrite Hboxes.
  rewrite processCategory_drive by done. simpl.
  rewrite bool_decide_eq_true_2 by done. done.
Qed.

Lemma cleanup_returned (srv : Srv) categories counts :
  returnedCounts (cleanup srv categories).2 = Some counts →
  ∃ srv1 boxes, getBoxes srv = (srv1, inr boxes) ∧ Forall resolvable categories.
Proof.
  unfold cleanup. simpl.
  destruct (getBoxes srv) as [srv1 [err | boxes]] eqn:Hboxes; simpl.
  - unfold returnedCounts. simpl. case_bool_decide; discriminate.
  - destruct (decide (Forall resolvable categories)) as [Hres | Hres]; [eauto |].
    destruct (processCategory_stuck boxes categories srv1
                (set_readyListener false (init (DeleteEmails categories) [])) Hres)
      as [Hp He].
    destruct (drive srv1 (processCategory boxes categories) _) as [srv2 s1].
    simpl in *. rewrite He. simpl. unfold returnedCounts. by rewrite Hp.
Qed.


(** C3.  A failure in opening, searching, flagging or expunging a folder
    adds nothing to the tally of its category, and the cleanup goes on with
    the next folder; after the last folder of a category, whatever its
    folders did, the next category is processed; so a cleanup of categories
    that resolve works through all of them, whatever the server fails at,
    and resolves with an entry for each. *)
Theorem folder_failures_do_not_abort (srv : Srv) :
  (∀ f rest total allDone s stage,
     (folderOutcome srv f).2 = Failed stage →
     drive srv (processFolders (f :: rest) total allDone) s
     = drive (folderOutcome srv f).1 (processFolders rest total allDone) s)
  ∧ (∀ boxes c rest fs s,
       resolve boxes c = Some fs →
       drive srv (processCategory boxes (c :: rest)) s
       = drive (folderOutcomes srv fs).1 (processCategory boxes rest)
           (perform IncrementProcessedCategories
              (perform (SetDeletedCount c (tally (folderOutcomes srv fs).2)) s)))
  ∧ (∀ categories srv1 boxes,
       getBoxes srv = (srv1, inr boxes) → Forall resolvable categories →
       promise (cleanup srv categories).2 = Resolved DeletedCountsObject
       ∧ processedCategories (cleanup srv categories).2 = length categories
       ∧ ∀ c, c ∈ categories →
              is_Some (deletedCounts (cleanup srv categories).2 !! c)).
Proof.
  split; [| split].
  - intros f rest total allDone s stage Hfail.
    rewrite processFolders_step, Hfail. simpl. by rewrite Nat.add_0_r.
  - intros boxes c rest fs s. apply processCategory_step.
  - intros categories srv1 boxes Hboxes Hres.
    destruct (cleanup_resolved srv srv1 boxes categories Hboxes Hres)
      as (Hp & Hc & Hn & _).
    split; [exact Hp |]. split; [exact Hn |].
    intros c Hin. rewrite Hc. apply countsOf_dom. left.
    by rewrite cleanupOutcomes_names.
Qed.

(** C6.  When the messages of a folder were flagged and the expunge fails,
    the count of the category stays as it was; it grows, by the number of
    matches, exactly when the flagging and the expunge both succeeded. *)
Theorem count_credited_after_expunge (srv : Srv) f rest total allDone s :
  (∀ srv1 n srv2 seqs srv3 srv4 r,
     openBox srv (folder f) = (srv1, inr n) → n ≠ 0 →
     search srv1 (searchCriteriaFor f) = (srv2, inr (Some seqs)) → seqs ≠ [] →
     addFlags srv2 seqs "\Deleted" = (srv3, None) →
     expunge srv3 = (srv4, r) →
     drive srv (processFolders (f :: rest) total allDone) s
     = drive srv4
         (processFolders rest
            (match r with None => total + length seqs | Some _ => total end)
            allDone) s)
  ∧ (contribution (folderOutcome srv f).2 ≠ 0 →
     ∃ srv1 n srv2 seqs srv3 srv4,
       openBox srv (folder f) = (srv1, inr n)
       ∧ search srv1 (searchCriteriaFor f) = (srv2, inr (Some seqs))
       ∧ addFlags srv2 seqs "\Deleted" = (srv3, None)
       ∧ expunge srv3 = (srv4, None)
       ∧ contribution (folderOutcome srv f).2 = length seqs)
  ∧ drive srv (processFolders (f :: rest) total allDone) s
    = drive (folderOutcome srv f).1
        (processFolders rest (total + contribution (folderOutcome srv f).2)
           allDone) s.
Proof.
  split; [| split; [| apply processFolders_step]].
  - intros srv1 n srv2 seqs srv3 srv4 r Hopen Hn Hsearch Hseqs Hflags Hexp.
    simpl. rewrite Hopen. simpl.
    destruct (Nat.eqb_spec n 0) as [-> | _]; [done |]. simpl.
    rewrite Hsearch. simpl. destruct seqs as [| x seqs]; [done |]. simpl.
    rewrite Hflags. simpl. rewrite Hexp. by destruct r.
  - unfold folderOutcome.
    destruct (openBox srv (folder f)) as [srv1 [err | n]]; simpl; [done |].
    destruct (n =? 0); simpl; [done |].
    destruct (search srv1 (searchCriteriaFor f)) as [srv2 [err | results]] eqn:Hs;
      simpl; [done |].
    destruct results as [[| x seqs] |]; simpl; try done.
    destruct (addFlags srv2 (x :: seqs) "\Deleted") as [srv3 [err |]] eqn:Hf;
      simpl; [done |].
    destruct (expunge srv3) as [srv4 [err |]] eqn:He; simpl; [done |].
    intros _. exists srv1, n, srv2, (x :: seqs), srv3, srv4. done.
Qed.


End Server.

Import Mailbox.

Lemma resolvable_own category :
  is_Some (categoryTable !! category) → resolvable category.
Proof. by left. Qed.

(** The cleanup scenario of the specification: "promotional" resolves to
    INBOX with the label (3 matches) and to [Promotions] (2 messages),
    "spam" to [[Gmail]/Spam] (5 messages). *)
Example cleanup_scenario :
  let s := (cleanup (account []) ["promotional"; "spam"]).2 in
  (map_to_list <$> returnedCounts s) = Some [("spam", 5); ("promotional", 5)]
  ∧ (Route.total <$> Route.cleanupRoute ["promotional"; "spam"] s) = Some 10
  ∧ endCalls s = 1.
Proof. vm_compute. done. Qed.

(** The scenario with a server that refuses to expunge INBOX, and with a
    category that is not in the table. *)
Example cleanup_with_failing_expunge :
  let s := (cleanup (account [("INBOX", CExpunge)])
              ["promotional"; "newsletters"; "spam"]).2 in
  (map_to_list <$> returnedCounts s)
  = Some [("spam", 5); ("newsletters", 0); ("promotional", 2)].
Proof. vm_compute. done. Qed.

Lemma folder_failures_do_not_abort_witness :
  let srv := account [("INBOX", CExpunge)] in
  promise (cleanup srv ["promotional"; "spam"]).2 = Resolved DeletedCountsObject
  ∧ processedCategories (cleanup srv ["promotional"; "spam"]).2 = 2.
Proof.
  intros srv.
  assert (Hboxes : getBoxes srv = (srv, inr (tree srv)))
    by (vm_compute; reflexivity).
  destruct (proj2 (proj2 (folder_failures_do_not_abort srv))
              ["promotional"; "spam"] srv (tree srv) Hboxes) as (Hp & Hn & _).
  - repeat (apply Forall_cons_2; [apply resolvable_own; vm_compute; eauto |]).
    apply Forall_nil_2.
  - split; [exact Hp | exact Hn].
Defined.

Lemma count_credited_after_expunge_witness :
  let srv := account [("INBOX", CExpunge)] in
  let allDone n := Do (SetDeletedCount "promotional" n) Done in
  let s := init (DeleteEmails ["promotional"]) [] in
  deletedCounts
    (drive srv (processFolders [inboxWithLabel; promotionsFolder] 0 allDone) s).2
  !! "promotional" = Some 2.
Proof.
  intros srv allDone s.
  rewrite (proj1 (count_credited_after_expunge srv inboxWithLabel
                    [promotionsFolder] 0 allDone s)
             (select "INBOX" srv) 4 (select "INBOX" srv) [1; 3; 4]
             (addFlags (select "INBOX" srv) [1; 3; 4] "\Deleted").1
             (addFlags (select "INBOX" srv) [1; 3; 4] "\Deleted").1
             (Some "NO"));
    vm_compute; congruence.
Defined.


(** A name that is neither in the table nor inherited is skipped with an
    entry of 0. *)
Lemma unknown_category_skipped `{ImapServer Srv} (srv : Srv) boxes c rest s :
  categoryMap c = None →
  drive srv (processCategory boxes (c :: rest)) s
  = drive srv (processCategory boxes rest)
      (perform IncrementProcessedCategories (perform (SetDeletedCount c 0) s)).
Proof. intros Hc. simpl. by rewrite Hc. Qed.

(** C10.  A requested name that is not in the table but is a property that
    every object inherits is not skipped: [categoryMap["constructor"]] is
    truthy, iterating its missing [folders] throws, and the cleanup stops
    with no entry for this or any later category, the session open and the
    promise pending. *)
Theorem inherited_name_breaks_cleanup :
  let s := (cleanup (account []) ["constructor"; "spam"]).2 in
  categoryTable !! "constructor" = None
  ∧ categoryMap "constructor" = Some inheritedMember
  ∧ foldersToProcess (tree (account [])) inheritedMember = TypeError
  ∧ deletedCounts s = ∅
  ∧ processedCategories s = 0
  ∧ endCalls s = 0
  ∧ promise s = Pending
  ∧ returnedCounts s = None.
Proof. vm_compute. repeat split. Qed.

End CleanupFacts.
